(** * YouTube channel and playlist manager: the data model of [oop.py]

    The development embeds the data classes [Video], [Playlist] and
    [Channel], their two persistence formats (one JSON record per line for
    a playlist, one indented JSON document for a channel) and the [App]
    command that deletes a playlist.

    - Python objects that travel through JSON are values of the type
      [value].  The fields the loaders copy from a document without a
      conversion (a title, a playlist name, an id, a channel name) hold a
      [value]; the fields they pass through [int] hold an integer.
    - A method that mutates [self] is an [action]: a state transformer that
      also says whether the call returned or raised, and keeps what was
      assigned before the exception.
    - Strings are the UTF-8 text of Python's.  [str.lower], [str.strip]
      and [int] of a string, whose answers depend on the tables of
      Unicode, are an interface, [PyStr], with the properties the program
      relies on; [reference_str] implements it on ASCII text.
    - A file holds UTF-8 text or bytes that are not: reading the latter
      raises [UnicodeDecodeError].
    - The [json] module is an interface, [JsonCodec], with the properties
      the program relies on; [RefJson] implements it, so every statement
      also runs on concrete text.  Python floats are left out. *)

From Stdlib Require Import ZArith String Ascii List Lia Bool.
From Stdlib Require Import Decimal DecimalString DecimalZ.
From Stdlib Require Hexadecimal HexadecimalString HexadecimalZ.
From stdpp Require Import base option list gmap strings.

Set Warnings "-register-all".

(* stdpp keeps [simpl] from unfolding the append of strings. *)
Arguments String.append s1 s2 : simpl nomatch.

Open Scope string_scope.
Open Scope Z_scope.

(** ** Python values, exceptions and outcomes *)

(** The Python objects [json] produces and consumes.  Number literals with a
    fraction or an exponent (Python floats) are left out: no operation of
    the data model creates one.  A dict is the list of its entries in
    insertion order. *)
Inductive value : Type :=
| VNone
| VBool (b : bool)
| VInt (z : Z)
| VStr (s : string)
| VList (items : list value)
| VDict (entries : list (string * value)).

Inductive exn : Type :=
| KeyError (key : string)
| TypeError
| ValueError
| AttributeError
| IndexError
| FileNotFoundError
| OSError
| UnicodeDecodeError
| JSONDecodeError.

Inductive result (A : Type) : Type :=
| Ok (a : A)
| Raise (e : exn).

Arguments Ok {A} a.
Arguments Raise {A} e.

Definition bind {A B : Type} (r : result A) (k : A -> result B) : result B :=
  match r with
  | Ok a => k a
  | Raise e => Raise e
  end.

Notation "'let*' x ':=' e 'in' k" := (bind e (fun x => k))
  (at level 10, x name, e at level 100, k at level 200).

(** [[f(x) for x in xs]] and a [for] loop that builds a list: the elements
    are visited in order and the first exception ends the loop. *)
Fixpoint traverse {A B : Type} (f : A -> result B) (xs : list A) : result (list B) :=
  match xs with
  | [] => Ok []
  | x :: xs' =>
      let* y := f x in
      let* ys := traverse f xs' in
      Ok (y :: ys)
  end.

(** A method that mutates an object: the outcome of the call and the state
    of the object afterwards, which is kept when the call raises. *)
Definition action (S A : Type) : Type := S -> result A * S.

Definition outcome {S A : Type} (r : result A * S) : result A := fst r.
Definition state_after {S A : Type} (r : result A * S) : S := snd r.

Definition ret {S A : Type} (a : A) : action S A := fun s => (Ok a, s).

Definition lift {S A : Type} (r : result A) : action S A := fun s => (r, s).

Definition read {S : Type} : action S S := fun s => (Ok s, s).

Definition write {S : Type} (s' : S) : action S unit := fun _ => (Ok tt, s').

Definition abind {S A B : Type} (m : action S A) (k : A -> action S B) : action S B :=
  fun s =>
    match m s with
    | (Ok a, s') => k a s'
    | (Raise e, s') => (Raise e, s')
    end.

Notation "'do' x '<-' m ';' k" := (abind m (fun x => k))
  (at level 10, x name, m at level 100, k at level 200).
Notation "'exec' m ';' k" := (abind m (fun _ => k))
  (at level 10, m at level 100, k at level 200).

(** ** Strings *)

Definition is_upper (c : ascii) : bool :=
  let n := nat_of_ascii c in (65 <=? n)%nat && (n <=? 90)%nat.

Definition lower_char (c : ascii) : ascii :=
  if is_upper c then ascii_of_nat (nat_of_ascii c + 32) else c.

(** The lower-case form of a text of ASCII characters: the letters A to Z
    become a to z, other bytes are kept. *)
Fixpoint ascii_lower (s : string) : string :=
  match s with
  | EmptyString => EmptyString
  | String c s' => String (lower_char c) (ascii_lower s')
  end.

(** Two characters that are equal, or an upper-case letter of ASCII and its
    lower-case form; two strings that differ in the case of the letters A
    to Z only. *)
Definition same_letter (c d : ascii) : bool :=
  Ascii.eqb c d
  || (is_upper c && Ascii.eqb d (lower_char c))
  || (is_upper d && Ascii.eqb c (lower_char d)).

Fixpoint equal_ignoring_case (s t : string) : bool :=
  match s, t with
  | EmptyString, EmptyString => true
  | String c s', String d t' => same_letter c d && equal_ignoring_case s' t'
  | _, _ => false
  end.

(** The characters of ASCII that [str.strip] removes: tab, line feed,
    vertical tab, form feed, carriage return, the four separators 0x1c to
    0x1f, and space; and those [int] skips around a literal of ASCII
    characters, which are the same but for the four separators. *)
Definition is_space (c : ascii) : bool :=
  let n := nat_of_ascii c in
  ((9 <=? n)%nat && (n <=? 13)%nat) || ((28 <=? n)%nat && (n <=? 32)%nat).

Definition is_c_space (c : ascii) : bool :=
  let n := nat_of_ascii c in
  ((9 <=? n)%nat && (n <=? 13)%nat) || (n =? 32)%nat.

Fixpoint lstrip_of (space : ascii -> bool) (s : string) : string :=
  match s with
  | EmptyString => EmptyString
  | String c s' => if space c then lstrip_of space s' else s
  end.

Fixpoint rstrip_of (space : ascii -> bool) (s : string) : string :=
  match s with
  | EmptyString => EmptyString
  | String c s' =>
      match rstrip_of space s' with
      | EmptyString => if space c then EmptyString else String c EmptyString
      | r => String c r
      end
  end.

Definition strip_of (space : ascii -> bool) (s : string) : string :=
  rstrip_of space (lstrip_of space s).

(** [str.strip] on a text of ASCII characters. *)
Definition ascii_strip (s : string) : string := strip_of is_space s.

Definition LF : ascii := ascii_of_nat 10.
Definition CR : ascii := ascii_of_nat 13.

(** [str(n)] for an integer. *)
Definition str_of_int (n : Z) : string := NilZero.string_of_int (Z.to_int n).

Definition is_digit (c : ascii) : bool :=
  let n := nat_of_ascii c in (48 <=? n)%nat && (n <=? 57)%nat.

Definition digit_val (c : ascii) : Z := Z.of_nat (nat_of_ascii c) - 48.

(** The digits of an [int] literal after its sign: a digit, then digits
    with at most one underscore between two of them. *)
Fixpoint digits_from (acc : Z) (prev_digit : bool) (s : string) : option Z :=
  match s with
  | EmptyString => if prev_digit then Some acc else None
  | String c s' =>
      if is_digit c then digits_from (10 * acc + digit_val c) true s'
      else if Ascii.eqb c "_" && prev_digit then
        match s' with
        | String d _ => if is_digit d then digits_from acc false s' else None
        | EmptyString => None
        end
      else None
  end.

(** [int(s)] for a text of ASCII characters: white space around, an
    optional sign, digits. *)
Definition ascii_int (s : string) : option Z :=
  match strip_of is_c_space s with
  | String "-" s' => option_map Z.opp (digits_from 0 false s')
  | String "+" s' => digits_from 0 false s'
  | s' => digits_from 0 false s'
  end.

(** What the program uses of the interpreter's [str] and [int], whose
    answers depend on the tables of Unicode: [s.lower()], [s.strip()] and
    [int(s)] for a string ([None] where it raises [ValueError]).  The
    strings are the UTF-8 text of Python's.  What the program relies on:
    two names that differ in the case of the letters A to Z only have one
    lower-case form; a text with no white space around it, followed by a
    line feed, strips back to it; [int] reads the decimal text [str]
    writes for an integer. *)
Class PyStr : Type := {
  lower : string -> string;
  strip : string -> string;
  int_of_str : string -> option Z;
  lower_letters : forall s t, equal_ignoring_case s t = true -> lower s = lower t;
  strip_line : forall s, strip s = s -> s <> "" -> strip (s ++ String LF "") = s;
  int_of_str_of_int : forall z, int_of_str (str_of_int z) = Some z
}.

(** Every character of a string passes a test. *)
Fixpoint all_chars (p : ascii -> bool) (s : string) : bool :=
  match s with
  | EmptyString => true
  | String c s' => p c && all_chars p s'
  end.

(** The code of the lower-case form of the character with code [n]. *)
Definition lower_code (n : nat) : nat :=
  if (65 <=? n)%nat && (n <=? 90)%nat then (n + 32)%nat else n.

Definition hex_digit (n : nat) : ascii :=
  if (n <? 10)%nat then ascii_of_nat (48 + n) else ascii_of_nat (87 + n).

Definition dquote : ascii := ascii_of_nat 34.
Definition squote : ascii := ascii_of_nat 39.
Definition backslash : ascii := ascii_of_nat 92.

Fixpoint contains_char (c : ascii) (s : string) : bool :=
  match s with
  | EmptyString => false
  | String d s' => Ascii.eqb c d || contains_char c s'
  end.

Definition repr_char (quote c : ascii) : string :=
  let n := nat_of_ascii c in
  if Ascii.eqb c backslash then String backslash (String backslash "")
  else if Ascii.eqb c quote then String backslash (String quote "")
  else if (n =? 9)%nat then String backslash "t"
  else if (n =? 10)%nat then String backslash "n"
  else if (n =? 13)%nat then String backslash "r"
  else if (n <? 32)%nat || (n =? 127)%nat then
    String backslash (String "x" (String (hex_digit (n / 16)) (String (hex_digit (n mod 16)) "")))
  else String c "".

Fixpoint repr_chars (quote : ascii) (s : string) : string :=
  match s with
  | EmptyString => EmptyString
  | String c s' => repr_char quote c ++ repr_chars quote s'
  end.

(** [repr] of a string: single quotes, unless the text has a single quote
    and no double quote; backslash, the quote and the control characters
    are escaped. *)
Definition repr_str (s : string) : string :=
  let quote :=
    if contains_char squote s && negb (contains_char dquote s) then dquote else squote in
  String quote (repr_chars quote s ++ String quote "").

(** [repr(x)], as the text of a list or of a dict shows its elements. *)
Fixpoint repr (v : value) : string :=
  match v with
  | VNone => "None"
  | VBool true => "True"
  | VBool false => "False"
  | VInt z => str_of_int z
  | VStr s => repr_str s
  | VList items => "[" ++ String.concat ", " (map repr items) ++ "]"
  | VDict entries =>
      "{" ++ String.concat ", " (map (fun kv => repr_str (fst kv) ++ ": " ++ repr (snd kv)) entries) ++ "}"
  end.

(** [str(x)], which an f-string applies to the value it formats. *)
Definition py_str (v : value) : string :=
  match v with
  | VStr s => s
  | _ => repr v
  end.

(** ** Operations on values *)

Fixpoint dict_lookup (k : string) (d : list (string * value)) : option value :=
  match d with
  | [] => None
  | (k', v) :: d' => if String.eqb k k' then Some v else dict_lookup k d'
  end.

(** [d[k] = v]: the value of an existing key is replaced in place, a new
    key goes to the end. *)
Fixpoint dict_set (k : string) (v : value) (d : list (string * value)) : list (string * value) :=
  match d with
  | [] => [(k, v)]
  | (k', v') :: d' => if String.eqb k k' then (k, v) :: d' else (k', v') :: dict_set k v d'
  end.

(** [o[k]] with a string key: only a dict has string subscripts. *)
Definition getitem (o : value) (k : string) : result value :=
  match o with
  | VDict d =>
      match dict_lookup k d with
      | Some v => Ok v
      | None => Raise (KeyError k)
      end
  | _ => Raise TypeError
  end.

(** [o.get(k, default)]: only a dict has the method. *)
Definition get (o : value) (k : string) (default : value) : result value :=
  match o with
  | VDict d =>
      match dict_lookup k d with
      | Some v => Ok v
      | None => Ok default
      end
  | _ => Raise AttributeError
  end.

(** [int(x)]. *)
Definition py_int `{PyStr} (x : value) : result Z :=
  match x with
  | VInt z => Ok z
  | VBool b => Ok (if b then 1 else 0)
  | VStr s =>
      match int_of_str s with
      | Some z => Ok z
      | None => Raise ValueError
      end
  | VNone | VList _ | VDict _ => Raise TypeError
  end.

Fixpoint chars (s : string) : list value :=
  match s with
  | EmptyString => []
  | String c s' => VStr (String c "") :: chars s'
  end.

(** The elements a [for] loop over [x] visits: a list gives its items, a
    dict its keys, a string its characters; nothing else is iterable. *)
Definition py_iter (x : value) : result (list value) :=
  match x with
  | VList items => Ok items
  | VDict entries => Ok (map (fun kv => VStr (fst kv)) entries)
  | VStr s => Ok (chars s)
  | VNone | VBool _ | VInt _ => Raise TypeError
  end.

(** [del l[i]]: a negative index counts from the end; an index outside the
    list raises [IndexError]. *)
Definition list_del {A : Type} (l : list A) (i : Z) : result (list A) :=
  let n := Z.of_nat (length l) in
  let j := if i <? 0 then i + n else i in
  if (0 <=? j) && (j <? n) then Ok (delete (Z.to_nat j) l) else Raise IndexError.

(** ** The data classes *)

Record Video : Type := mkVideo {
  title : value;
  duration : Z;
  views : Z
}.

Record Playlist : Type := mkPlaylist {
  playListName : value;
  plID : value;
  videos : list Video
}.

Record Channel : Type := mkChannel {
  name : value;
  playlists : list Playlist
}.

(** [dataclasses.asdict(v)]. *)
Definition asdict (v : Video) : value :=
  VDict [("title", title v); ("duration", VInt (duration v)); ("views", VInt (views v))].

(** [Video(vd['title'], int(vd['duration']), int(vd['views']))], the
    expression both loaders build a video with. *)
Definition video_of_record `{PyStr} (vd : value) : result Video :=
  let* t := getitem vd "title" in
  let* d := getitem vd "duration" in
  let* d' := py_int d in
  let* w := getitem vd "views" in
  let* w' := py_int w in
  Ok (mkVideo t d' w').

Module Video.

Definition __str__ (self : Video) : string :=
  let mins := duration self / 60 in
  let secs := duration self mod 60 in
  let dur :=
    if mins =? 0 then str_of_int secs ++ "s"
    else str_of_int mins ++ "m" ++ str_of_int secs ++ "s" in
  py_str (title self) ++ " — " ++ dur ++ " — " ++ str_of_int (views self) ++ " views".

End Video.

(** The fields as the annotations of the classes type them: the title and
    the names are strings, the id is an integer. *)
Definition is_str (x : value) : bool :=
  match x with VStr _ => true | _ => false end.

Definition is_int (x : value) : bool :=
  match x with VInt _ => true | _ => false end.

Definition typed_video (v : Video) : bool := is_str (title v).

Definition typed_playlist (p : Playlist) : bool :=
  is_str (playListName p) && is_int (plID p) && forallb typed_video (videos p).

Definition typed_channel (c : Channel) : bool :=
  is_str (name c) && forallb typed_playlist (playlists c).

(** ** Files *)

(** The files a run can see, each under the path the program opens it
    with: the text of each file that holds UTF-8 text; the files whose
    bytes are not UTF-8 text, each with the lines a reader gets before the
    decoder meets the bytes it refuses (none when the file is read in one
    piece); and the paths that can be opened for writing. *)
Record filesystem : Type := mkFs {
  files : gmap string string;
  undecodable : gmap string (list string);
  writable : string -> bool
}.

(** A file opened for reading: the lines its iteration yields, and whether
    it then raises [UnicodeDecodeError]. *)
Record reader : Type := mkReader {
  lines_read : list string;
  decode_error : bool
}.

(** [open(filename, 'r', encoding='utf-8')] followed by [f.read()]: the
    whole text, decoded. *)
Definition open_read (fs : filesystem) (filename : string) : result string :=
  match files fs !! filename with
  | Some text => Ok text
  | None =>
      match undecodable fs !! filename with
      | Some _ => Raise UnicodeDecodeError
      | None => Raise FileNotFoundError
      end
  end.

(** [open(filename, 'w', encoding='utf-8')], the writes and the close. *)
Definition write_file (filename text : string) : action filesystem unit :=
  fun fs =>
    if writable fs filename
    then (Ok tt, mkFs (<[filename := text]> (files fs)) (delete filename (undecodable fs))
                   (writable fs))
    else (Raise OSError, fs).

(** Reading in text mode turns each of CR LF and CR into LF. *)
Fixpoint universal_newlines (s : string) : string :=
  match s with
  | EmptyString => EmptyString
  | String c s' =>
      if Ascii.eqb c CR then
        match s' with
        | String d s'' =>
            if Ascii.eqb d LF then String LF (universal_newlines s'')
            else String LF (universal_newlines s')
        | EmptyString => String LF EmptyString
        end
      else String c (universal_newlines s')
  end.

(** The lines of a text, each with its line feed (the last one may have
    none). *)
Fixpoint splitlines (s : string) : list string :=
  match s with
  | EmptyString => []
  | String c s' =>
      if Ascii.eqb c LF then String LF "" :: splitlines s'
      else
        match splitlines s' with
        | [] => [String c ""]
        | l :: ls => String c l :: ls
        end
  end.

(** [f.read()] and [for line in f]. *)
Definition read_text (text : string) : string := universal_newlines text.
Definition file_lines (text : string) : list string := splitlines (universal_newlines text).

(** [open(filename, 'r', encoding='utf-8')] followed by [for line in f]. *)
Definition open_lines (fs : filesystem) (filename : string) : result reader :=
  match files fs !! filename with
  | Some text => Ok (mkReader (file_lines text) false)
  | None =>
      match undecodable fs !! filename with
      | Some lines => Ok (mkReader lines true)
      | None => Raise FileNotFoundError
      end
  end.

(** ** The json module *)

Fixpoint distinct (ks : list string) : bool :=
  match ks with
  | [] => true
  | k :: ks' => negb (existsb (String.eqb k) ks') && distinct ks'
  end.

(** A value as Python holds it: no dict has one key twice. *)
Fixpoint wf (v : value) : bool :=
  match v with
  | VList items => forallb wf items
  | VDict entries => distinct (map fst entries) && forallb (fun kv => wf (snd kv)) entries
  | _ => true
  end.

(** What the program uses of [json], and what it relies on: the reader
    fails with [JSONDecodeError] only, it reads back what either writer
    wrote, and the compact writer gives one line with no white space
    around it. *)
Class JsonCodec `{PyStr} : Type := {
  dumps : value -> string;
  dump_indent : value -> string;
  loads : string -> result value;
  loads_raises : forall s e, loads s = Raise e -> e = JSONDecodeError;
  loads_dumps : forall v, wf v = true -> loads (dumps v) = Ok v;
  loads_dump_indent : forall v, wf v = true -> loads (dump_indent v) = Ok v;
  dumps_one_line : forall v,
    contains_char LF (dumps v) = false /\ contains_char CR (dumps v) = false;
  dumps_stripped : forall v, strip (dumps v) = dumps v /\ dumps v <> "";
  dump_indent_no_cr : forall v, contains_char CR (dump_indent v) = false
}.

(** *** A reference codec

    The text [json] writes for a value, and a reader of JSON text, as a
    scanner followed by a stack machine.  The reader covers the JSON
    grammar but for numbers with a fraction or an exponent, the constants
    NaN and Infinity, and [\u] escapes outside ASCII. *)
Module RefJson.

Definition escape_char (c : ascii) : string :=
  let n := nat_of_ascii c in
  if Ascii.eqb c dquote then String backslash (String dquote "")
  else if Ascii.eqb c backslash then String backslash (String backslash "")
  else if (n =? 10)%nat then String backslash "n"
  else if (n =? 13)%nat then String backslash "r"
  else if (n =? 9)%nat then String backslash "t"
  else if (n =? 8)%nat then String backslash "b"
  else if (n =? 12)%nat then String backslash "f"
  else if (n <? 32)%nat then
    String backslash (String "u" (String "0" (String "0"
      (String (hex_digit (n / 16)) (String (hex_digit (n mod 16)) "")))))
  else String c "".

Fixpoint escape (s : string) : string :=
  match s with
  | EmptyString => EmptyString
  | String c s' => escape_char c ++ escape s'
  end.

(** [encode_basestring]: the text of a string, with [ensure_ascii=False]. *)
Definition quote (s : string) : string := String dquote (escape s ++ String dquote "").

Fixpoint spaces (n : nat) : string :=
  match n with
  | O => ""
  | S n' => String " " (spaces n')
  end.

(** The encoder's [newline_indent] and [item_separator], for
    [indent=None] and for an integer [indent]. *)
Definition newline_indent (indent : option nat) (level : nat) : string :=
  match indent with
  | None => ""
  | Some n => String LF (spaces (n * level))
  end.

Definition item_separator (indent : option nat) : string :=
  match indent with
  | None => ", "
  | Some _ => ","
  end.

Fixpoint encode (indent : option nat) (level : nat) (v : value) : string :=
  match v with
  | VNone => "null"
  | VBool true => "true"
  | VBool false => "false"
  | VInt z => str_of_int z
  | VStr s => quote s
  | VList [] => "[]"
  | VList items =>
      "[" ++ newline_indent indent (S level)
          ++ String.concat (item_separator indent ++ newline_indent indent (S level))
               (map (encode indent (S level)) items)
          ++ newline_indent indent level ++ "]"
  | VDict [] => "{}"
  | VDict entries =>
      "{" ++ newline_indent indent (S level)
          ++ String.concat (item_separator indent ++ newline_indent indent (S level))
               (map (fun kv => quote (fst kv) ++ ": " ++ encode indent (S level) (snd kv)) entries)
          ++ newline_indent indent level ++ "}"
  end.

Definition dumps (v : value) : string := encode None 0 v.
Definition dump_indent (v : value) : string := encode (Some 2%nat) 0 v.

Inductive token : Type :=
| TLBrace | TRBrace | TLBrack | TRBrack | TComma | TColon
| TString (s : string)
| TNumber (z : Z)
| TTrue | TFalse | TNull.

(** Where the scanner is: between tokens, inside a string (with the text
    read so far), after a backslash, inside a [\u] escape (digits read,
    their value), inside a number (its text so far), inside a keyword
    (what is left of it, the token it gives). *)
Inductive mode : Type :=
| MDefault
| MStr (text : string)
| MEsc (text : string)
| MUni (text : string) (count code : nat)
| MNum (text : string)
| MWord (rest : string) (tok : token).

Definition snoc (s : string) (c : ascii) : string := s ++ String c "".

(** An integer literal: an optional minus, then 0 or digits that do not
    start with 0; that is the text of an integer, or [-0]. *)
Definition number_of_text (t : string) : option Z :=
  match NilZero.int_of_string t with
  | Some d =>
      let z := Z.of_int d in
      if String.eqb (str_of_int z) t || String.eqb t "-0" then Some z else None
  | None => None
  end.

Definition hex_val (c : ascii) : option nat :=
  let n := nat_of_ascii c in
  if (48 <=? n)%nat && (n <=? 57)%nat then Some (n - 48)%nat
  else if (97 <=? n)%nat && (n <=? 102)%nat then Some (n - 87)%nat
  else if (65 <=? n)%nat && (n <=? 70)%nat then Some (n - 55)%nat
  else None.

Definition is_json_space (c : ascii) : bool :=
  let n := nat_of_ascii c in
  (n =? 32)%nat || (n =? 9)%nat || (n =? 10)%nat || (n =? 13)%nat.

Definition scan_state : Type := mode * list token.

(** A character between tokens; [toks] holds the tokens read, last first. *)
Definition scan_default (c : ascii) (toks : list token) : option scan_state :=
  if is_json_space c then Some (MDefault, toks)
  else if Ascii.eqb c "{" then Some (MDefault, TLBrace :: toks)
  else if Ascii.eqb c "}" then Some (MDefault, TRBrace :: toks)
  else if Ascii.eqb c "[" then Some (MDefault, TLBrack :: toks)
  else if Ascii.eqb c "]" then Some (MDefault, TRBrack :: toks)
  else if Ascii.eqb c "," then Some (MDefault, TComma :: toks)
  else if Ascii.eqb c ":" then Some (MDefault, TColon :: toks)
  else if Ascii.eqb c dquote then Some (MStr "", toks)
  else if Ascii.eqb c "-" || is_digit c then Some (MNum (String c ""), toks)
  else if Ascii.eqb c "t" then Some (MWord "rue" TTrue, toks)
  else if Ascii.eqb c "f" then Some (MWord "alse" TFalse, toks)
  else if Ascii.eqb c "n" then Some (MWord "ull" TNull, toks)
  else None.

Definition unescape (c : ascii) : option ascii :=
  if Ascii.eqb c dquote then Some dquote
  else if Ascii.eqb c backslash then Some backslash
  else if Ascii.eqb c "/" then Some "/"%char
  else if Ascii.eqb c "b" then Some (ascii_of_nat 8)
  else if Ascii.eqb c "f" then Some (ascii_of_nat 12)
  else if Ascii.eqb c "n" then Some LF
  else if Ascii.eqb c "r" then Some CR
  else if Ascii.eqb c "t" then Some (ascii_of_nat 9)
  else None.

Definition scan_step (st : scan_state) (c : ascii) : option scan_state :=
  let (m, toks) := st in
  match m with
  | MDefault => scan_default c toks
  | MStr text =>
      if Ascii.eqb c dquote then Some (MDefault, TString text :: toks)
      else if Ascii.eqb c backslash then Some (MEsc text, toks)
      else if (nat_of_ascii c <? 32)%nat then None
      else Some (MStr (snoc text c), toks)
  | MEsc text =>
      if Ascii.eqb c "u" then Some (MUni text 0 0, toks)
      else option_map (fun d => (MStr (snoc text d), toks)) (unescape c)
  | MUni text count code =>
      match hex_val c with
      | Some h =>
          let code' := (16 * code + h)%nat in
          if (count =? 3)%nat then
            if (code' <? 128)%nat then Some (MStr (snoc text (ascii_of_nat code')), toks)
            else None
          else Some (MUni text (S count) code', toks)
      | None => None
      end
  | MNum text =>
      if is_digit c then Some (MNum (snoc text c), toks)
      else
        match number_of_text text with
        | Some z => scan_default c (TNumber z :: toks)
        | None => None
        end
  | MWord rest tok =>
      match rest with
      | String e rest' =>
          if Ascii.eqb c e then
            match rest' with
            | EmptyString => Some (MDefault, tok :: toks)
            | _ => Some (MWord rest' tok, toks)
            end
          else None
      | EmptyString => None
      end
  end.

Fixpoint scan (s : string) (st : scan_state) : option scan_state :=
  match s with
  | EmptyString => Some st
  | String c s' =>
      match scan_step st c with
      | Some st' => scan s' st'
      | None => None
      end
  end.

(** The end of the text: a number may end there, nothing else may be open. *)
Definition scan_end (st : scan_state) : option (list token) :=
  match st with
  | (MDefault, toks) => Some toks
  | (MNum text, toks) => option_map (fun z => TNumber z :: toks) (number_of_text text)
  | _ => None
  end.

Definition tokenize (s : string) : option (list token) :=
  match scan s (MDefault, []) with
  | Some st => option_map (@rev token) (scan_end st)
  | None => None
  end.

(** An open array with its items, last first, or an open object with its
    entries and the key whose value is being read. *)
Inductive frame : Type :=
| FArr (items : list value)
| FObj (entries : list (string * value)) (key : string).

Inductive pstate : Type :=
| PVal (stk : list frame)
| PArrOpen (stk : list frame)
| PObjOpen (stk : list frame)
| PObjKey (entries : list (string * value)) (stk : list frame)
| PObjColon (entries : list (string * value)) (key : string) (stk : list frame)
| PArrNext (items : list value) (stk : list frame)
| PObjNext (entries : list (string * value)) (stk : list frame)
| PEnd (v : value).

(** A value is complete: it goes to the array or the object it stands in. *)
Definition deliver (v : value) (stk : list frame) : pstate :=
  match stk with
  | [] => PEnd v
  | FArr items :: stk' => PArrNext (v :: items) stk'
  | FObj entries key :: stk' => PObjNext (dict_set key v entries) stk'
  end.

Definition value_start (stk : list frame) (t : token) : option pstate :=
  match t with
  | TNull => Some (deliver VNone stk)
  | TTrue => Some (deliver (VBool true) stk)
  | TFalse => Some (deliver (VBool false) stk)
  | TNumber z => Some (deliver (VInt z) stk)
  | TString s => Some (deliver (VStr s) stk)
  | TLBrack => Some (PArrOpen stk)
  | TLBrace => Some (PObjOpen stk)
  | _ => None
  end.

Definition parse_step (st : pstate) (t : token) : option pstate :=
  match st with
  | PVal stk => value_start stk t
  | PArrOpen stk =>
      match t with
      | TRBrack => Some (deliver (VList []) stk)
      | _ => value_start (FArr [] :: stk) t
      end
  | PObjOpen stk =>
      match t with
      | TRBrace => Some (deliver (VDict []) stk)
      | TString k => Some (PObjColon [] k stk)
      | _ => None
      end
  | PObjKey entries stk =>
      match t with
      | TString k => Some (PObjColon entries k stk)
      | _ => None
      end
  | PObjColon entries k stk =>
      match t with
      | TColon => Some (PVal (FObj entries k :: stk))
      | _ => None
      end
  | PArrNext items stk =>
      match t with
      | TComma => Some (PVal (FArr items :: stk))
      | TRBrack => Some (deliver (VList (rev items)) stk)
      | _ => None
      end
  | PObjNext entries stk =>
      match t with
      | TComma => Some (PObjKey entries stk)
      | TRBrace => Some (deliver (VDict entries) stk)
      | _ => None
      end
  | PEnd _ => None
  end.

Fixpoint parse_from (toks : list token) (st : pstate) : option pstate :=
  match toks with
  | [] => Some st
  | t :: toks' =>
      match parse_step st t with
      | Some st' => parse_from toks' st'
      | None => None
      end
  end.

Definition parse (toks : list token) : option value :=
  match parse_from toks (PVal []) with
  | Some (PEnd v) => Some v
  | _ => None
  end.

Definition loads (s : string) : result value :=
  match tokenize s with
  | Some toks =>
      match parse toks with
      | Some v => Ok v
      | None => Raise JSONDecodeError
      end
  | None => Raise JSONDecodeError
  end.

Fixpoint interleave {A : Type} (sep : A) (ls : list (list A)) : list A :=
  match ls with
  | [] => []
  | [x] => x
  | x :: xs => x ++ sep :: interleave sep xs
  end.

(** The tokens of a value's text. *)
Fixpoint tokens (v : value) : list token :=
  match v with
  | VNone => [TNull]
  | VBool true => [TTrue]
  | VBool false => [TFalse]
  | VInt z => [TNumber z]
  | VStr s => [TString s]
  | VList items => TLBrack :: interleave TComma (map tokens items) ++ [TRBrack]
  | VDict entries =>
      TLBrace
        :: interleave TComma (map (fun kv => TString (fst kv) :: TColon :: tokens (snd kv)) entries)
        ++ [TRBrace]
  end.

(** The tokens of a dict entry. *)
Definition entry_tokens (kv : string * value) : list token :=
  TString (fst kv) :: TColon :: tokens (snd kv).

(** A printable character: not a control character. *)
Definition printable (c : ascii) : bool := (32 <=? nat_of_ascii c)%nat.

(** A state between two tokens: nothing is open, or a number that can end
    here; [toks] counts the number in. *)
Definition settled (st : scan_state) (toks : list token) : Prop :=
  st = (MDefault, toks) \/
  exists text z toks', st = (MNum text, toks') /\ number_of_text text = Some z
                       /\ toks = TNumber z :: toks'.

(** [s] read between tokens leaves the scanner between tokens, with the
    tokens [ts] read. *)
Definition reads (s : string) (ts : list token) : Prop :=
  forall toks, scan s (MDefault, toks) = Some (MDefault, (rev ts ++ toks)%list).

(** [s] read between tokens leaves the scanner settled, with [ts] read. *)
Definition emits (s : string) (ts : list token) : Prop :=
  forall toks, exists st, scan s (MDefault, toks) = Some st /\ settled st (rev ts ++ toks)%list.

(** [s] ends a number if one is open, and leaves the scanner between
    tokens with [ts] read. *)
Definition closes (s : string) (ts : list token) : Prop :=
  forall st toks, settled st toks -> scan s st = Some (MDefault, (rev ts ++ toks)%list).

(** The tokens [ts] are read as the value [v], wherever a value may stand. *)
Definition builds (ts : list token) (v : value) : Prop :=
  forall stk rest, parse_from (ts ++ rest) (PVal stk) = parse_from rest (deliver v stk).

End RefJson.

(** ** Playlist, Channel and the App command *)

Definition set_videos (vs : list Video) : action Playlist unit :=
  fun self => (Ok tt, mkPlaylist (playListName self) (plID self) vs).

Definition set_name (n : value) : action Channel unit :=
  fun self => (Ok tt, mkChannel n (playlists self)).

Definition set_playlists (ps : list Playlist) : action Channel unit :=
  fun self => (Ok tt, mkChannel (name self) ps).

Module Playlist.

Definition __init__ (playListName plID : value) : Playlist :=
  mkPlaylist playListName plID [].

Definition add_video (video : Video) : action Playlist unit :=
  do self <- read;
  set_videos (videos self ++ [video]).

Definition remove_video (index : Z) : action Playlist unit :=
  do self <- read;
  if (0 <=? index) && (index <? Z.of_nat (length (videos self))) then
    do vs <- lift (list_del (videos self) index);
    set_videos vs
  else ret tt.

(** [json.dumps(asdict(v), ensure_ascii=False) + '\n'], the line of a video. *)
Definition video_line `{JsonCodec} (v : Video) : string := dumps (asdict v) ++ String LF "".

Definition save_playlist_to_file `{JsonCodec} (self : Playlist) (filename : string)
  : action filesystem unit :=
  write_file filename (String.concat "" (map video_line (videos self))).

(** The body of [for line in f]. *)
Fixpoint load_lines `{JsonCodec} (lines : list string) : action Playlist unit :=
  match lines with
  | [] => ret tt
  | line :: rest =>
      if String.eqb (strip line) "" then load_lines rest
      else
        do data <- lift (loads (strip line));
        do v <- lift (video_of_record data);
        exec add_video v;
        load_lines rest
  end.

Definition load_playlist_from_file `{JsonCodec} (fs : filesystem) (filename : string)
  : action Playlist unit :=
  exec set_videos [];
  do f <- lift (open_lines fs filename);
  exec load_lines (lines_read f);
  if decode_error f then lift (Raise UnicodeDecodeError) else ret tt.

Definition to_dict (self : Playlist) : value :=
  VDict [("playListName", playListName self); ("plID", plID self);
         ("videos", VList (map asdict (videos self)))].

Definition from_dict `{PyStr} (d : value) : result Playlist :=
  let* n := getitem d "playListName" in
  let* i := getitem d "plID" in
  let* vs := get d "videos" (VList []) in
  let* items := py_iter vs in
  let* videos := traverse video_of_record items in
  Ok (mkPlaylist n i videos).

Definition __str__ (self : Playlist) : string :=
  py_str (playListName self) ++ " (ID: " ++ py_str (plID self) ++ ") — "
    ++ str_of_int (Z.of_nat (length (videos self))) ++ " videos".

End Playlist.

(** [s.lower()]: a method of strings only. *)
Definition lower_method `{PyStr} (s : value) : result string :=
  match s with
  | VStr t => Ok (lower t)
  | _ => Raise AttributeError
  end.

Module Channel.

Definition __init__ (name : value) : Channel := mkChannel name [].

Definition add_playlist (playlist : Playlist) : action Channel unit :=
  do self <- read;
  set_playlists (playlists self ++ [playlist]).

(** The loop of [search_playlist], with the lowered query. *)
Fixpoint search_from `{PyStr} (name : string) (pls : list Playlist)
  : result (option Playlist) :=
  match pls with
  | [] => Ok None
  | pl :: rest =>
      let* n := lower_method (playListName pl) in
      if String.eqb n name then Ok (Some pl) else search_from name rest
  end.

Definition search_playlist `{PyStr} (self : Channel) (name : string)
  : result (option Playlist) :=
  search_from (lower name) (playlists self).

(** The object [to_json] writes. *)
Definition document (self : Channel) : value :=
  VDict [("name", name self); ("playlists", VList (map Playlist.to_dict (playlists self)))].

Definition to_json `{JsonCodec} (self : Channel) (filename : string) : action filesystem unit :=
  write_file filename (dump_indent (document self)).

(** [[Playlist.from_dict(d) for d in obj.get('playlists', [])]]. *)
Definition playlists_of `{PyStr} (obj : value) : result (list Playlist) :=
  let* ps := get obj "playlists" (VList []) in
  let* items := py_iter ps in
  traverse Playlist.from_dict items.

Definition load_json `{JsonCodec} (fs : filesystem) (filename : string) : action Channel unit :=
  do text <- lift (open_read fs filename);
  do obj <- lift (loads (read_text text));
  do self <- read;
  do n <- lift (get obj "name" (name self));
  exec set_name n;
  do pls <- lift (playlists_of obj);
  set_playlists pls.

Definition display_playlists (self : Channel) : list string :=
  map Playlist.__str__ (playlists self).

End Channel.

(** The playlist's name is a string whose lower-case form is that of the
    query: the two are equal up to the case of their letters. *)
Definition matches `{PyStr} (query : string) (pl : Playlist) : Prop :=
  exists s, playListName pl = VStr s /\ lower s = lower query.

(** The application: its channel and the id the next playlist gets. *)
Record App : Type := mkApp {
  channel : Channel;
  next_playlist_id : Z
}.

Module App.

(** [App.delete_playlist], with the selection of the playlist list box
    ([curselection()]) as its input. *)
Definition delete_playlist (sel : list Z) : action App unit :=
  match sel with
  | [] => ret tt
  | idx :: _ =>
      do self <- read;
      do pls <- lift (list_del (playlists (channel self)) idx);
      write (mkApp (mkChannel (name (channel self)) pls) (next_playlist_id self))
  end.

End App.

(** ** Lists, ranges and loops *)

(** The position an index stands for in a list of length [n]: a negative
    index counts from the end. *)
Definition norm_index (n : nat) (i : Z) : Z := if i <? 0 then i + Z.of_nat n else i.

Definition in_bounds (n : nat) (i : Z) : bool :=
  (0 <=? norm_index n i) && (norm_index n i <? Z.of_nat n).

(** [l[i]]. *)
Definition list_getitem {A : Type} (l : list A) (i : Z) : result A :=
  if in_bounds (length l) i then
    match l !! Z.to_nat (norm_index (length l) i) with
    | Some x => Ok x
    | None => Raise IndexError
    end
  else Raise IndexError.

(** [l[i] = x]. *)
Definition list_setitem {A : Type} (l : list A) (i : Z) (x : A) : result (list A) :=
  if in_bounds (length l) i then Ok (<[Z.to_nat (norm_index (length l) i) := x]> l)
  else Raise IndexError.

(** [range(a, b)]. *)
Definition py_range (a b : Z) : list Z :=
  map (fun k => a + Z.of_nat k) (seq 0 (Z.to_nat (b - a))).

(** [for x in xs: body(x)]. *)
Fixpoint for_each {S A : Type} (xs : list A) (body : A -> action S unit) : action S unit :=
  match xs with
  | [] => ret tt
  | x :: xs' => exec body x; for_each xs' body
  end.

(** ** The icon *)

(** [pixels[y][x] = color], on rows that are lists of their own. *)
Definition set_pixel (y x : Z) (color : string) : action (list (list string)) unit :=
  do pixels <- read;
  do row <- lift (list_getitem pixels y);
  do row' <- lift (list_setitem row x color);
  do pixels' <- lift (list_setitem pixels y row');
  write pixels'.

(** The two nested loops over [range(lo, hi)]. *)
Definition fill_square (lo hi : Z) (color : string) : action (list (list string)) unit :=
  for_each (py_range lo hi)
    (fun y => for_each (py_range lo hi) (fun x => set_pixel y x color)).

(** The pixels of [create_square_icon] before they are put on the image. *)
Definition icon_pixels (size : nat) (fg bg : string) (inner : bool)
  : result (list (list string)) :=
  let n := Z.of_nat size in
  let pixels := replicate size (replicate size bg) in
  let paint :=
    if inner then
      let pad := Z.max 1 (n / 6) in
      fill_square pad (n - pad) fg
    else fill_square 0 n fg in
  match paint pixels with
  | (Ok _, pixels') => Ok pixels'
  | (Raise e, _) => Raise e
  end.

(** ['{' + ' '.join(row) + '}']. *)
Definition put_data (row : list string) : string := "{" ++ String.concat " " row ++ "}".

(** [create_square_icon], as the calls [img.put(data, to=(0, y))] it makes,
    in order. *)
Definition create_square_icon (size : nat) (fg bg : string) (inner : bool)
  : result (list (string * Z)) :=
  let* pixels := icon_pixels size fg bg inner in
  Ok (imap (fun y row => (put_data row, Z.of_nat y)) pixels).

(** The colour of the pixel in row [y] and column [x] of an icon. *)
Definition icon_color (size : nat) (fg bg : string) (inner : bool) (y x : nat) : string :=
  let n := Z.of_nat size in
  let pad := Z.max 1 (n / 6) in
  let inside k := (pad <=? Z.of_nat k) && (Z.of_nat k <? n - pad) in
  if inner then (if inside y && inside x then fg else bg) else fg.

(** The square of pixels whose colour in row [y] and column [x] is
    [f y x]. *)
Definition grid (n : nat) (f : nat -> nat -> string) : list (list string) :=
  map (fun y => map (f y) (seq 0 n)) (seq 0 n).

(** [f], with [color] where the row is in [[ylo, yhi)] and the column in
    [[xlo, xhi)]. *)
Definition painted (f : nat -> nat -> string) (ylo yhi xlo xhi : Z) (color : string)
  : nat -> nat -> string :=
  fun y x =>
    if (ylo <=? Z.of_nat y) && (Z.of_nat y <? yhi) && (xlo <=? Z.of_nat x) && (Z.of_nat x <? xhi)
    then color else f y x.

(** ** Colours *)

Definition hex_value (c : ascii) : option Z :=
  let n := nat_of_ascii c in
  if (48 <=? n)%nat && (n <=? 57)%nat then Some (Z.of_nat n - 48)
  else if (97 <=? n)%nat && (n <=? 102)%nat then Some (Z.of_nat n - 87)
  else if (65 <=? n)%nat && (n <=? 70)%nat then Some (Z.of_nat n - 55)
  else None.

(** The digits of a base 16 literal: as [digits_from], with the digits of
    base 16. *)
Fixpoint hex_digits_from (acc : Z) (prev_digit : bool) (s : string) : option Z :=
  match s with
  | EmptyString => if prev_digit then Some acc else None
  | String c s' =>
      match hex_value c with
      | Some d => hex_digits_from (16 * acc + d) true s'
      | None =>
          if Ascii.eqb c "_" && prev_digit then
            match s' with
            | String d _ =>
                match hex_value d with
                | Some _ => hex_digits_from acc false s'
                | None => None
                end
            | EmptyString => None
            end
          else None
      end
  end.

(** What follows the sign: an optional [0x] or [0X], which one underscore
    may follow, then the digits. *)
Definition hex_body (t : string) : option Z :=
  match t with
  | String "0" (String x r) =>
      if Ascii.eqb x "x" || Ascii.eqb x "X" then
        match r with
        | String "_" r' => hex_digits_from 0 false r'
        | _ => hex_digits_from 0 false r
        end
      else hex_digits_from 0 false t
  | _ => hex_digits_from 0 false t
  end.

(** [int(s, 16)] for a text of ASCII characters. *)
Definition int_of_str_16 (s : string) : result Z :=
  let r :=
    match strip_of is_c_space s with
    | String "-" t => option_map Z.opp (hex_body t)
    | String "+" t => hex_body t
    | t => hex_body t
    end in
  match r with
  | Some z => Ok z
  | None => Raise ValueError
  end.

(** [h.lstrip('#')]. *)
Fixpoint lstrip_hash (h : string) : string :=
  match h with
  | String "#" h' => lstrip_hash h'
  | _ => h
  end.

(** [hex_to_rgb] of [draw_horizontal_gradient]. *)
Definition hex_to_rgb (h : string) : result (Z * Z * Z) :=
  let h := lstrip_hash h in
  let* r := int_of_str_16 (substring 0 2 h) in
  let* g := int_of_str_16 (substring 2 2 h) in
  let* b := int_of_str_16 (substring 4 2 h) in
  Ok (r, g, b).

(** [format(n, '02x')]: lower-case digits of base 16, zeros up to two
    characters, the sign counted in. *)
Definition format_02x (n : Z) : string :=
  let digits := HexadecimalString.NilZero.string_of_int (Z.to_hex_int (Z.abs n)) in
  if n <? 0 then "-" ++ digits
  else if (String.length digits <? 2)%nat then "0" ++ digits
  else digits.

(** [rgb_to_hex] of [draw_horizontal_gradient]. *)
Definition rgb_to_hex (r g b : Z) : string :=
  "#" ++ format_02x r ++ format_02x g ++ format_02x b.

(** The two characters of a colour component are read back as it. *)
Definition reads_back (n : Z) : bool :=
  match format_02x n with
  | String a (String b EmptyString) =>
      negb (Ascii.eqb a "#")
      && match int_of_str_16 (String a (String b EmptyString)) with
         | Ok z => z =? n
         | Raise _ => false
         end
  | _ => false
  end.

(** ** The commands of the window *)

(** The window: the application and the lines its playlist list box shows.
    The video list box, the status line and the text of the dialogs are
    outputs only and are left out. *)
Record Window : Type := mkWindow {
  app_of : App;
  playlist_listbox : list string
}.

(** How a command ends when it returns: with no dialog, or after one of the
    message boxes; [ShowError] carries the exception that was caught. *)
Inductive reply : Type :=
| Returned
| ShowInfo
| ShowWarning
| ShowError (e : exn).

(** A number as [max] and [+] see it: an integer, or a bool. *)
Definition as_number (x : value) : option Z :=
  match x with
  | VInt z => Some z
  | VBool b => Some (if b then 1 else 0)
  | _ => None
  end.

Fixpoint as_numbers (xs : list value) : option (list Z) :=
  match xs with
  | [] => Some []
  | x :: xs' =>
      match as_number x, as_numbers xs' with
      | Some z, Some zs => Some (z :: zs)
      | _, _ => None
      end
  end.

(** [max(ids, default=0) + 1].  With numbers only, the greatest plus one.
    Otherwise [TypeError]: [max] compares a number with a value that is
    none, or it returns a value that is no number, to which 1 cannot be
    added. *)
Definition next_id_of (ids : list value) : result Z :=
  match as_numbers ids with
  | Some [] => Ok 1
  | Some (z :: zs) => Ok (fold_left Z.max zs z + 1)
  | None => Raise TypeError
  end.

Module Gui.

(** A method of the application, of its channel, of one of its playlists. *)
Definition on_app {A : Type} (m : action App A) : action Window A :=
  fun w => let (r, a) := m (app_of w) in (r, mkWindow a (playlist_listbox w)).

Definition on_channel {A : Type} (m : action Channel A) : action App A :=
  fun a => let (r, c) := m (channel a) in (r, mkApp c (next_playlist_id a)).

(** [pl = self.channel.playlists[idx]] followed by a method of [pl]: the
    playlist is changed where it stands. *)
Definition on_playlist {A : Type} (idx : Z) (m : action Playlist A) : action Channel A :=
  fun c =>
    match list_getitem (playlists c) idx with
    | Raise e => (Raise e, c)
    | Ok pl =>
        let (r, pl') := m pl in
        (r, mkChannel (name c)
              (<[Z.to_nat (norm_index (length (playlists c)) idx) := pl']> (playlists c)))
    end.

Definition set_next_id (n : Z) : action App unit :=
  fun a => (Ok tt, mkApp (channel a) n).

(** [try: body except Exception as e: messagebox.showerror(...)]. *)
Definition try_except {S : Type} (body : action S unit) : action S reply :=
  fun s =>
    match body s with
    | (Ok _, s') => (Ok Returned, s')
    | (Raise e, s') => (Ok (ShowError e), s')
    end.

(** [App._start_app]: the window when the application starts. *)
Definition start : Window :=
  mkWindow (mkApp (Channel.__init__ (VStr "Elsayed Channel")) 1) [].

Definition refresh_playlists : action Window unit :=
  fun w => (Ok tt, mkWindow (app_of w) (Channel.display_playlists (channel (app_of w)))).

(** [rename_channel], with the text of the search entry. *)
Definition rename_channel `{PyStr} (search_var : string) : action Window reply :=
  let name := strip search_var in
  if String.eqb name "" then ret ShowWarning
  else
    exec on_app (on_channel (set_name (VStr name)));
    ret Returned.

(** [save_channel], with the path the file dialog gives (empty when the
    dialog is cancelled). *)
Definition save_channel `{JsonCodec} (w : Window) (filename : string)
  : action filesystem reply :=
  if String.eqb filename "" then ret Returned
  else try_except (Channel.to_json (channel (app_of w)) filename).

(** [load_channel], with the files and the path the file dialog gives. *)
Definition load_channel `{JsonCodec} (fs : filesystem) (filename : string)
  : action Window reply :=
  if String.eqb filename "" then ret Returned
  else
    try_except
      (exec on_app (on_channel (Channel.load_json fs filename));
       do w <- read;
       do n <- lift (next_id_of (map plID (playlists (channel (app_of w)))));
       exec on_app (set_next_id n);
       refresh_playlists).

(** [create_playlist], with the text of the name entry. *)
Definition create_playlist `{PyStr} (new_playlist_name : string) : action Window reply :=
  do w <- read;
  let n := next_playlist_id (app_of w) in
  let name :=
    if String.eqb (strip new_playlist_name) "" then "Playlist " ++ str_of_int n
    else strip new_playlist_name in
  let pl := Playlist.__init__ (VStr name) (VInt n) in
  exec on_app (set_next_id (n + 1));
  exec on_app (on_channel (Channel.add_playlist pl));
  exec refresh_playlists;
  ret Returned.

(** [delete_playlist], with the selection of the playlist list box. *)
Definition delete_playlist (sel : list Z) : action Window reply :=
  match sel with
  | [] => ret ShowInfo
  | _ =>
      exec on_app (App.delete_playlist sel);
      exec refresh_playlists;
      ret Returned
  end.

(** [save_selected_playlist] and [export_playlist_file], with the
    selection and the path the file dialog gives. *)
Definition save_selected_playlist `{JsonCodec} (w : Window) (sel : list Z) (filename : string)
  : action filesystem reply :=
  match sel with
  | [] => ret ShowInfo
  | idx :: _ =>
      do pl <- lift (list_getitem (playlists (channel (app_of w))) idx);
      if String.eqb filename "" then ret Returned
      else try_except (Playlist.save_playlist_to_file pl filename)
  end.

Definition export_playlist_file `{JsonCodec} (w : Window) (sel : list Z) (filename : string)
  : action filesystem reply :=
  save_selected_playlist w sel filename.

(** [load_playlist_to_selected]. *)
Definition load_playlist_to_selected `{JsonCodec} (fs : filesystem) (sel : list Z)
    (filename : string) : action Window reply :=
  match sel with
  | [] => ret ShowInfo
  | idx :: _ =>
      do w <- read;
      do pl <- lift (list_getitem (playlists (channel (app_of w))) idx);
      if String.eqb filename "" then ret Returned
      else
        try_except
          (on_app (on_channel (on_playlist idx (Playlist.load_playlist_from_file fs filename))))
  end.

(** The body of the [try] of [add_video_to_selected]: the video of the
    three entries. *)
Definition entered_video `{PyStr} (title_var duration_var views_var : string)
  : result Video :=
  let title := strip title_var in
  let* duration := py_int (VStr duration_var) in
  let* views := py_int (VStr views_var) in
  if String.eqb title "" then Raise ValueError
  else Ok (mkVideo (VStr title) duration views).

(** [add_video_to_selected], with the selection and the three entries. *)
Definition add_video_to_selected `{PyStr} (sel : list Z)
    (title_var duration_var views_var : string) : action Window reply :=
  match sel with
  | [] => ret ShowInfo
  | idx :: _ =>
      match entered_video title_var duration_var views_var with
      | Raise e => ret (ShowError e)
      | Ok v =>
          exec on_app (on_channel (on_playlist idx (Playlist.add_video v)));
          ret Returned
      end
  end.

(** [App.remove_video], with the selections of the two list boxes. *)
Definition remove_video (psel vsel : list Z) : action Window reply :=
  match psel, vsel with
  | pidx :: _, vidx :: _ =>
      exec on_app (on_channel (on_playlist pidx (Playlist.remove_video vidx)));
      ret Returned
  | _, _ => ret ShowInfo
  end.

End Gui.

(** The ids of the playlists are integers below the id the next playlist
    gets, and no two playlists have the same id. *)
Definition ids_below (a : App) : Prop :=
  Forall (fun p => exists z, plID p = VInt z /\ z < next_playlist_id a) (playlists (channel a)).

Definition ids_distinct (a : App) : Prop := NoDup (map plID (playlists (channel a))).

(** The list box shows the playlists: one line for each, in their order. *)
Definition listed (w : Window) : Prop :=
  length (playlist_listbox w) = length (playlists (channel (app_of w))).

(** The three together. *)
Definition consistent (w : Window) : Prop :=
  ids_below (app_of w) /\ ids_distinct (app_of w) /\ listed w.

(** What the user does to the window, the loading of a channel apart: a
    button, with what the widgets and the dialog give when it is pressed. *)
Inductive command : Type :=
| CreatePlaylist (new_playlist_name : string)
| DeletePlaylist (sel : list Z)
| RenameChannel (search_var : string)
| AddVideo (sel : list Z) (title_var duration_var views_var : string)
| RemoveVideo (psel vsel : list Z)
| LoadPlaylist (fs : filesystem) (sel : list Z) (filename : string).

Definition run `{JsonCodec} (c : command) : action Window reply :=
  match c with
  | CreatePlaylist entry => Gui.create_playlist entry
  | DeletePlaylist sel => Gui.delete_playlist sel
  | RenameChannel entry => Gui.rename_channel entry
  | AddVideo sel t d v => Gui.add_video_to_selected sel t d v
  | RemoveVideo psel vsel => Gui.remove_video psel vsel
  | LoadPlaylist fs sel filename => Gui.load_playlist_to_selected fs sel filename
  end.

(** The window after a sequence of commands, whether they return or
    raise. *)
Definition run_all `{JsonCodec} (cs : list command) (w : Window) : Window :=
  fold_left (fun w c => state_after (run c w)) cs w.

(** ** Sample data *)

Definition playlist_a : Playlist := mkPlaylist (VStr "music") (VInt 1) [].
Definition playlist_b : Playlist := mkPlaylist (VStr "MUSIC") (VInt 2) [].
Definition app_ab : App := mkApp (mkChannel (VStr "Elsayed Channel") [playlist_a; playlist_b]) 3.

Definition channel_ab : Channel := mkChannel (VStr "Elsayed Channel") [playlist_a; playlist_b].

Definition tutorials : Playlist :=
  mkPlaylist (VStr "Tutorials") (VInt 1)
    [mkVideo (VStr "Intro") 125 10; mkVideo (VStr "Second part") 45 0].

Definition test_channel : Channel := mkChannel (VStr "Test") [tutorials].

Definition empty_fs : filesystem := mkFs ∅ ∅ (fun _ => true).

Definition fs_with (filename text : string) : filesystem :=
  mkFs {[ filename := text ]} ∅ (fun _ => true).

Definition no_id_document : string :=
  "{" ++ RefJson.quote "name" ++ ": " ++ RefJson.quote "New" ++ ", "
      ++ RefJson.quote "playlists" ++ ": [{" ++ RefJson.quote "playListName" ++ ": "
      ++ RefJson.quote "Broken" ++ "}]}".

Definition missing_name_document : string :=
  "{" ++ RefJson.quote "playlists" ++ ": [{" ++ RefJson.quote "playListName" ++ ": "
      ++ RefJson.quote "Tutorials" ++ "}]}".

Definition half_file : string :=
  RefJson.dumps (asdict (mkVideo (VStr "Kept") 5 1)) ++ String LF ("not json" ++ String LF "").

Definition two_lines : string :=
  RefJson.dumps (asdict (mkVideo (VStr "Intro") 125 10)) ++ String LF
    (RefJson.dumps (asdict (mkVideo (VStr "Second part") 45 0)) ++ String LF "").

Definition two_lines_and_blank : string :=
  RefJson.dumps (asdict (mkVideo (VStr "Intro") 125 10)) ++ String LF
    ("   " ++ String LF
       (RefJson.dumps (asdict (mkVideo (VStr "Second part") 45 0)) ++ String LF "")).


Definition text_id_document : string :=
  "{" ++ RefJson.quote "playlists" ++ ": [{" ++ RefJson.quote "playListName" ++ ": "
      ++ RefJson.quote "a" ++ ", " ++ RefJson.quote "plID" ++ ": " ++ RefJson.quote "one"
      ++ "}]}".

(** The window after three playlists are created, and the one after two
    are created and the second is deleted. *)
Definition three_playlists : Window :=
  mkWindow
    (mkApp
       (mkChannel (VStr "Elsayed Channel")
          [mkPlaylist (VStr "x") (VInt 1) []; mkPlaylist (VStr "y") (VInt 2) [];
           mkPlaylist (VStr "z") (VInt 3) []])
       4)
    ["x (ID: 1) — 0 videos"; "y (ID: 2) — 0 videos"; "z (ID: 3) — 0 videos"].

Definition two_then_one : Window :=
  mkWindow
    (mkApp (mkChannel (VStr "Elsayed Channel") [mkPlaylist (VStr "Tutorials") (VInt 1) []]) 3)
    ["Tutorials (ID: 1) — 0 videos"].

(** * Lemmas *)

(** ** Strings and lists of strings *)

Lemma append_nil_r (s : string) : s ++ "" = s.
Proof. induction s as [|c s IH]; simpl; [reflexivity | now rewrite IH]. Qed.

Lemma append_assoc (s1 s2 s3 : string) : (s1 ++ s2) ++ s3 = s1 ++ (s2 ++ s3).
Proof. induction s1 as [|c s1 IH]; simpl; [reflexivity | now rewrite IH]. Qed.

Lemma concat_cons2 (sep x y : string) (l : list string) :
  String.concat sep (x :: y :: l) = x ++ sep ++ String.concat sep (y :: l).
Proof. reflexivity. Qed.

Lemma all_chars_app p s1 s2 :
  all_chars p (s1 ++ s2) = all_chars p s1 && all_chars p s2.
Proof.
  induction s1 as [|c s1 IH]; simpl; [reflexivity|].
  now rewrite IH, andb_assoc.
Qed.

Lemma all_chars_concat p sep l :
  all_chars p sep = true ->
  Forall (fun x => all_chars p x = true) l ->
  all_chars p (String.concat sep l) = true.
Proof.
  intros Hsep Hl. induction Hl as [|x l Hx Hl IH]; [reflexivity|].
  destruct l as [|y l]; [exact Hx|].
  rewrite concat_cons2, !all_chars_app, Hx, Hsep, IH. reflexivity.
Qed.

Lemma all_chars_impl (p q : ascii -> bool) s :
  (forall c, p c = true -> q c = true) -> all_chars p s = true -> all_chars q s = true.
Proof.
  intros Hpq. induction s as [|c s IH]; simpl; [reflexivity|].
  rewrite !andb_true_iff. intros [Hc Hs]. split; [now apply Hpq | now apply IH].
Qed.

Lemma contains_char_all c s :
  contains_char c s = false <-> all_chars (fun d => negb (Ascii.eqb c d)) s = true.
Proof.
  induction s as [|d s IH]; simpl; [tauto|].
  rewrite orb_false_iff, andb_true_iff, negb_true_iff, IH. tauto.
Qed.

Section Strip.

Variable space : ascii -> bool.

Lemma lstrip_keeps c s : space c = false -> lstrip_of space (String c s) = String c s.
Proof. intros H. simpl. now rewrite H. Qed.

Lemma rstrip_keeps s c :
  space c = false -> rstrip_of space (s ++ String c "") = s ++ String c "".
Proof.
  intros H. induction s as [|a s IH]; simpl.
  - now rewrite H.
  - rewrite IH. destruct s; reflexivity.
Qed.

Lemma rstrip_drops s c :
  space c = true -> rstrip_of space (s ++ String c "") = rstrip_of space s.
Proof.
  intros H. induction s as [|a s IH]; simpl.
  - now rewrite H.
  - now rewrite IH.
Qed.

Lemma lstrip_app s x :
  lstrip_of space s <> "" -> lstrip_of space (s ++ x) = lstrip_of space s ++ x.
Proof.
  induction s as [|a s IH]; simpl; [congruence|].
  destruct (space a); [exact IH | reflexivity].
Qed.

Lemma strip_bracketed c s d :
  space c = false -> space d = false ->
  strip_of space (String c (s ++ String d "")) = String c (s ++ String d "").
Proof.
  intros Hc Hd. unfold strip_of. rewrite (lstrip_keeps _ _ Hc).
  apply (rstrip_keeps (String c s) d Hd).
Qed.

Lemma strip_no_space s :
  all_chars (fun c => negb (space c)) s = true -> strip_of space s = s.
Proof.
  intros H. unfold strip_of.
  assert (lstrip_of space s = s) as ->.
  { destruct s as [|c s]; [reflexivity|]. simpl in *.
    apply andb_true_iff in H as [Hc _]. apply negb_true_iff in Hc. now rewrite Hc. }
  induction s as [|c s IH]; simpl in *; [reflexivity|].
  apply andb_true_iff in H as [Hc Hs]. apply negb_true_iff in Hc.
  rewrite (IH Hs), Hc. destruct s; reflexivity.
Qed.

(** A line written as a stripped, non-empty text and a line feed strips
    back to the text. *)
Lemma strip_of_line s :
  space LF = true -> strip_of space s = s -> s <> "" -> strip_of space (s ++ String LF "") = s.
Proof.
  intros Hlf Hs Hne. unfold strip_of in *.
  assert (lstrip_of space s <> "") as Hl.
  { intros E. rewrite E in Hs. simpl in Hs. congruence. }
  rewrite (lstrip_app _ _ Hl), rstrip_drops by exact Hlf. exact Hs.
Qed.

End Strip.

Lemma universal_newlines_id s : contains_char CR s = false -> universal_newlines s = s.
Proof.
  induction s as [|c s IH]; [reflexivity|].
  cbn [contains_char universal_newlines]. rewrite orb_false_iff. intros [Hc Hs].
  rewrite Ascii.eqb_sym in Hc. rewrite Hc, IH by exact Hs. reflexivity.
Qed.

Lemma splitlines_line s rest :
  contains_char LF s = false ->
  splitlines (s ++ String LF rest) = (s ++ String LF "") :: splitlines rest.
Proof.
  induction s as [|c s IH]; [cbn [append splitlines]; now rewrite Ascii.eqb_refl|].
  cbn [contains_char append splitlines]. rewrite orb_false_iff. intros [Hc Hs].
  rewrite Ascii.eqb_sym in Hc. rewrite Hc, IH by exact Hs. reflexivity.
Qed.

Lemma forallb_Forall {A : Type} (f : A -> bool) (l : list A) :
  forallb f l = true <-> Forall (fun x => f x = true) l.
Proof.
  induction l as [|x l IH]; simpl.
  - split; [constructor | reflexivity].
  - rewrite andb_true_iff, IH, Forall_cons. tauto.
Qed.

(** ** The nested induction principle of [value] *)

Section ValueInduction.

Variable P : value -> Prop.
Hypothesis HNone : P VNone.
Hypothesis HBool : forall b, P (VBool b).
Hypothesis HInt : forall z, P (VInt z).
Hypothesis HStr : forall s, P (VStr s).
Hypothesis HList : forall items, Forall P items -> P (VList items).
Hypothesis HDict : forall entries, Forall (fun kv => P (snd kv)) entries -> P (VDict entries).

Fixpoint value_nested_ind (v : value) : P v :=
  match v with
  | VNone => HNone
  | VBool b => HBool b
  | VInt z => HInt z
  | VStr s => HStr s
  | VList items =>
      HList items
        ((fix go (l : list value) : Forall P l :=
            match l with
            | [] => @List.Forall_nil _ P
            | x :: l' => @List.Forall_cons _ P x l' (value_nested_ind x) (go l')
            end) items)
  | VDict entries =>
      HDict entries
        ((fix go (l : list (string * value)) : Forall (fun kv => P (snd kv)) l :=
            match l with
            | [] => @List.Forall_nil _ _
            | (k, x) :: l' =>
                @List.Forall_cons _ (fun kv => P (snd kv)) (k, x) l' (value_nested_ind x) (go l')
            end) entries)
  end.

End ValueInduction.

(** ** The scanner reads what the encoder writes *)

Module RefJsonFacts.
Import RefJson.

Lemma scan_app s1 s2 st :
  scan (s1 ++ s2) st = match scan s1 st with Some st' => scan s2 st' | None => None end.
Proof.
  revert st. induction s1 as [|c s1 IH]; intros st; simpl; [reflexivity|].
  destruct (scan_step st c); [apply IH | reflexivity].
Qed.

Lemma settled_default toks : settled (MDefault, toks) toks.
Proof. now left. Qed.

Lemma scan_end_settled st toks : settled st toks -> scan_end st = Some toks.
Proof.
  intros [-> | (text & z & toks' & -> & Hz & ->)]; simpl; [reflexivity|].
  now rewrite Hz.
Qed.

Lemma scan_step_settled st toks c :
  settled st toks -> is_digit c = false -> scan_step st c = scan_default c toks.
Proof.
  intros [-> | (text & z & toks' & -> & Hz & ->)] Hc; simpl; [reflexivity|].
  now rewrite Hc, Hz.
Qed.

Lemma reads_emits s ts : reads s ts -> emits s ts.
Proof. intros H toks. exists (MDefault, (rev ts ++ toks)%list). split; [apply H | now left]. Qed.

Lemma closes_reads s ts : closes s ts -> reads s ts.
Proof. intros H toks. apply H. now left. Qed.

Lemma reads_app s1 s2 ts1 ts2 :
  reads s1 ts1 -> reads s2 ts2 -> reads (s1 ++ s2) (ts1 ++ ts2).
Proof.
  intros H1 H2 toks. rewrite scan_app, H1, H2, rev_app_distr, <- app_assoc. reflexivity.
Qed.

Lemma reads_then_emits s1 s2 ts1 ts2 :
  reads s1 ts1 -> emits s2 ts2 -> emits (s1 ++ s2) (ts1 ++ ts2).
Proof.
  intros H1 H2 toks. rewrite scan_app, H1.
  destruct (H2 (rev ts1 ++ toks)%list) as (st & Hst & Hset).
  exists st. split; [exact Hst|]. now rewrite rev_app_distr, <- app_assoc.
Qed.

Lemma emits_then_closes s1 s2 ts1 ts2 :
  emits s1 ts1 -> closes s2 ts2 -> reads (s1 ++ s2) (ts1 ++ ts2).
Proof.
  intros H1 H2 toks. rewrite scan_app.
  destruct (H1 toks) as (st & -> & Hset).
  rewrite (H2 _ _ Hset), rev_app_distr, <- app_assoc. reflexivity.
Qed.

Lemma closes_then_reads s1 s2 ts1 ts2 :
  closes s1 ts1 -> reads s2 ts2 -> closes (s1 ++ s2) (ts1 ++ ts2).
Proof.
  intros H1 H2 st toks Hset. rewrite scan_app, (H1 _ _ Hset), H2, rev_app_distr, <- app_assoc.
  reflexivity.
Qed.

Lemma reads_nil : reads "" [].
Proof. intros toks. reflexivity. Qed.

Lemma reads_spaces n : reads (spaces n) [].
Proof. intros toks. induction n as [|n IH]; simpl; [reflexivity | exact IH]. Qed.

Lemma reads_newline_indent indent level : reads (newline_indent indent level) [].
Proof.
  destruct indent as [n|]; [|apply reads_nil].
  intros toks. simpl. apply reads_spaces.
Qed.

Lemma closes_char c t :
  is_digit c = false ->
  (forall toks, scan_default c toks = Some (MDefault, t ++ toks)%list) ->
  closes (String c "") (rev t).
Proof.
  intros Hc Ht st toks Hset. simpl.
  rewrite (scan_step_settled _ _ _ Hset Hc), Ht, rev_involutive. reflexivity.
Qed.

Lemma closes_comma : closes "," [TComma].
Proof. now apply (closes_char "," [TComma]). Qed.

Lemma closes_rbrack : closes "]" [TRBrack].
Proof. now apply (closes_char "]" [TRBrack]). Qed.

Lemma closes_rbrace : closes "}" [TRBrace].
Proof. now apply (closes_char "}" [TRBrace]). Qed.

Lemma closes_line_feed : closes (String LF "") [].
Proof. now apply (closes_char LF []). Qed.

Lemma reads_lbrack : reads "[" [TLBrack].
Proof. intros toks. reflexivity. Qed.

Lemma reads_lbrace : reads "{" [TLBrace].
Proof. intros toks. reflexivity. Qed.

Lemma reads_colon : reads ": " [TColon].
Proof. intros toks. reflexivity. Qed.

Lemma reads_space : reads " " [].
Proof. intros toks. reflexivity. Qed.

Lemma closes_separator indent level :
  closes (item_separator indent ++ newline_indent indent level) [TComma].
Proof.
  destruct indent as [n|]; simpl.
  - apply (closes_then_reads "," _ [TComma] []); [apply closes_comma|].
    apply (reads_newline_indent (Some n)).
  - apply (closes_then_reads "," " " [TComma] []); [apply closes_comma | apply reads_space].
Qed.

Lemma closes_end indent level c t :
  closes (String c "") [t] -> closes (newline_indent indent level ++ String c "") [t].
Proof.
  intros Hc. destruct indent as [n|]; simpl; [|exact Hc].
  apply (closes_then_reads (String LF "") (spaces (n * level) ++ String c "") [] [t]);
    [apply closes_line_feed|].
  apply (reads_app _ _ [] [t]); [apply reads_spaces | now apply closes_reads].
Qed.

(** Strings. *)

Lemma scan_escape_char c rest text toks :
  scan (escape_char c ++ rest) (MStr text, toks) = scan rest (MStr (snoc text c), toks).
Proof.
  destruct c as [[] [] [] [] [] [] [] []]; reflexivity.
Qed.

Lemma snoc_append text c s : snoc text c ++ s = text ++ String c s.
Proof. unfold snoc. now rewrite append_assoc. Qed.

Lemma scan_escape s rest text toks :
  scan (escape s ++ rest) (MStr text, toks) = scan rest (MStr (text ++ s), toks).
Proof.
  revert text. induction s as [|c s IH]; intros text; simpl.
  - now rewrite append_nil_r.
  - rewrite append_assoc, scan_escape_char, IH, snoc_append. reflexivity.
Qed.

Lemma reads_quote s : reads (quote s) [TString s].
Proof.
  intros toks. unfold quote. simpl scan.
  change (scan_default dquote toks) with (Some (MStr "", toks)).
  rewrite scan_escape. reflexivity.
Qed.

(** Numbers. *)

Lemma digits_of_uint d : all_chars is_digit (NilEmpty.string_of_uint d) = true.
Proof. induction d; simpl; auto. Qed.

Lemma digits_of_uint_zero d : all_chars is_digit (NilZero.string_of_uint d) = true.
Proof. destruct d; try reflexivity; apply (digits_of_uint (_ _)). Qed.

Lemma scan_digits s text toks :
  all_chars is_digit s = true -> scan s (MNum text, toks) = Some (MNum (text ++ s), toks).
Proof.
  revert text. induction s as [|c s IH]; intros text; simpl.
  - now rewrite append_nil_r.
  - rewrite andb_true_iff. intros [Hc Hs]. rewrite Hc, IH by exact Hs.
    now rewrite snoc_append.
Qed.

Lemma to_int_proper z : Z.to_int z <> Pos Nil /\ Z.to_int z <> Neg Nil.
Proof.
  destruct z as [|p|p]; simpl; split; try discriminate;
    intros [= H]; now apply (DecimalPos.Unsigned.to_uint_nonnil p).
Qed.

Lemma number_of_text_str z : number_of_text (str_of_int z) = Some z.
Proof.
  unfold number_of_text, str_of_int.
  destruct (to_int_proper z) as [Hp Hn].
  rewrite (NilZero.isi _ Hp Hn), DecimalZ.of_to, String.eqb_refl. reflexivity.
Qed.

Lemma scan_str_of_int z toks :
  scan (str_of_int z) (MDefault, toks) = Some (MNum (str_of_int z), toks).
Proof.
  unfold str_of_int. destruct (Z.to_int z) as [d|d]; simpl NilZero.string_of_int.
  - pose proof (digits_of_uint_zero d) as Hd.
    destruct (NilZero.string_of_uint d) as [|c s] eqn:E.
    + destruct d; discriminate.
    + simpl in Hd. apply andb_true_iff in Hd as [Hc Hs].
      simpl scan. 
      assert (scan_default c toks = Some (MNum (String c ""), toks)) as ->.
      { revert Hc. destruct c as [[] [] [] [] [] [] [] []]; try discriminate; reflexivity. }
      now rewrite scan_digits.
  - simpl scan. change (scan_default "-" toks) with (Some (MNum "-", toks)).
    now rewrite scan_digits by apply digits_of_uint_zero.
Qed.

Lemma emits_int z : emits (str_of_int z) [TNumber z].
Proof.
  intros toks. exists (MNum (str_of_int z), toks). split; [apply scan_str_of_int|].
  right. exists (str_of_int z), z, toks. split; [reflexivity|].
  split; [apply number_of_text_str | reflexivity].
Qed.

(** Values. *)

Lemma emits_concat sep (ss : list string) (tss : list (list token)) :
  closes sep [TComma] -> Forall2 emits ss tss -> ss <> [] ->
  emits (String.concat sep ss) (interleave TComma tss).
Proof.
  intros Hsep Hall. induction Hall as [|s ts ss tss Hs Hall IH]; intros Hne; [congruence|].
  destruct Hall as [|s' ts' ss tss Hs' Hall]; [exact Hs|].
  rewrite concat_cons2, <- append_assoc.
  assert (interleave TComma (ts :: ts' :: tss)
          = ((ts ++ [TComma]) ++ interleave TComma (ts' :: tss))%list) as ->.
  { change (interleave TComma (ts :: ts' :: tss))
      with (ts ++ TComma :: interleave TComma (ts' :: tss))%list.
    now rewrite <- List.app_assoc. }
  apply (reads_then_emits (s ++ sep) _ (ts ++ [TComma])%list _).
  - now apply (emits_then_closes s sep ts [TComma]).
  - now apply IH.
Qed.

Lemma emits_literal s t : reads s [t] -> emits s [t].
Proof. apply reads_emits. Qed.

Lemma reads_keyword s t :
  (forall toks, scan s (MDefault, toks) = Some (MDefault, t :: toks)) -> reads s [t].
Proof. intros H toks. apply H. Qed.

Lemma emits_container (op cl : ascii) (topen tclose : token) indent level ss tss :
  reads (String op "") [topen] -> closes (String cl "") [tclose] ->
  Forall2 emits ss tss -> ss <> [] ->
  emits (String op "" ++ newline_indent indent (S level)
           ++ String.concat (item_separator indent ++ newline_indent indent (S level)) ss
           ++ newline_indent indent level ++ String cl "")
        (topen :: interleave TComma tss ++ [tclose]).
Proof.
  intros Hop Hcl Hall Hne. apply reads_emits.
  change (topen :: interleave TComma tss ++ [tclose])%list
    with ([topen] ++ interleave TComma tss ++ [tclose])%list.
  apply reads_app; [exact Hop|].
  change (interleave TComma tss ++ [tclose])%list
    with ([] ++ interleave TComma tss ++ [tclose])%list.
  apply reads_app; [apply reads_newline_indent|].
  apply emits_then_closes; [|now apply closes_end].
  apply emits_concat; [apply closes_separator | exact Hall | exact Hne].
Qed.

Lemma emits_encode v : forall indent level, emits (encode indent level v) (tokens v).
Proof.
  induction v as [| b | z | s | items IH | entries IH] using value_nested_ind;
    intros indent level.
  - apply reads_emits, reads_keyword. reflexivity.
  - destruct b; apply reads_emits, reads_keyword; reflexivity.
  - apply emits_int.
  - apply reads_emits, reads_quote.
  - destruct items as [|x l].
    + apply reads_emits. intros toks. reflexivity.
    + change (encode indent level (VList (x :: l))) with
        ("[" ++ newline_indent indent (S level)
           ++ String.concat (item_separator indent ++ newline_indent indent (S level))
                (map (encode indent (S level)) (x :: l))
           ++ newline_indent indent level ++ "]").
      apply (emits_container "[" "]"); [apply reads_lbrack | apply closes_rbrack | | discriminate].
      apply Forall2_fmap, Forall_Forall2_diag.
      eapply Forall_impl; [exact IH|]. intros y Hy. apply Hy.
  - destruct entries as [|kx l].
    + apply reads_emits. intros toks. reflexivity.
    + change (encode indent level (VDict (kx :: l))) with
        ("{" ++ newline_indent indent (S level)
           ++ String.concat (item_separator indent ++ newline_indent indent (S level))
                (map (fun kv => quote (fst kv) ++ ": " ++ encode indent (S level) (snd kv))
                   (kx :: l))
           ++ newline_indent indent level ++ "}").
      apply (emits_container "{" "}"); [apply reads_lbrace | apply closes_rbrace | | discriminate].
      apply Forall2_fmap, Forall_Forall2_diag.
      eapply Forall_impl; [exact IH|]. intros [k y] Hy. cbn [fst snd] in Hy |- *.
      apply (reads_then_emits (quote k) _ [TString k] ([TColon] ++ tokens y));
        [apply reads_quote|].
      apply (reads_then_emits ": " _ [TColon] (tokens y)); [apply reads_colon | apply Hy].
Qed.

Lemma tokenize_encode indent level v : tokenize (encode indent level v) = Some (tokens v).
Proof.
  unfold tokenize. destruct (emits_encode v indent level []) as (st & -> & Hset).
  rewrite (scan_end_settled _ _ Hset). simpl. now rewrite app_nil_r, rev_involutive.
Qed.

(** ** The parser rebuilds the value *)

Lemma existsb_eqb_elem (k : string) (ks : list string) :
  existsb (String.eqb k) ks = false <-> k ∉ ks.
Proof.
  induction ks as [|k' ks IH]; simpl.
  - split; [intros _ H; inversion H | reflexivity].
  - rewrite orb_false_iff, IH, not_elem_of_cons, String.eqb_neq. tauto.
Qed.

Lemma distinct_NoDup (ks : list string) : distinct ks = true <-> NoDup ks.
Proof.
  induction ks as [|k ks IH]; simpl.
  - split; [constructor | reflexivity].
  - rewrite andb_true_iff, negb_true_iff, existsb_eqb_elem, IH, NoDup_cons. tauto.
Qed.

Lemma dict_set_fresh k v d :
  k ∉ map fst d -> dict_set k v d = (d ++ [(k, v)])%list.
Proof.
  induction d as [|[k' v'] d IH]; simpl; [reflexivity|].
  rewrite not_elem_of_cons. intros [Hne Hd].
  apply String.eqb_neq in Hne. rewrite Hne, IH by exact Hd. reflexivity.
Qed.

Lemma parse_from_app ts1 ts2 st :
  parse_from (ts1 ++ ts2) st
  = match parse_from ts1 st with Some st' => parse_from ts2 st' | None => None end.
Proof.
  revert st. induction ts1 as [|t ts1 IH]; intros st; simpl; [reflexivity|].
  destruct (parse_step st t); [apply IH | reflexivity].
Qed.

Lemma builds_items l : forall x done stk rest,
  Forall2 builds (map tokens (x :: l)) (x :: l) ->
  parse_from (interleave TComma (map tokens (x :: l)) ++ TRBrack :: rest)
    (PVal (FArr done :: stk))
  = parse_from rest (deliver (VList (rev done ++ x :: l)) stk).
Proof.
  induction l as [|y l IH]; intros x done stk rest Hall.
  - apply Forall2_cons_1 in Hall as [Hx _]. cbn [map interleave].
    rewrite Hx. reflexivity.
  - apply Forall2_cons_1 in Hall as [Hx Hall].
    change (interleave TComma (map tokens (x :: y :: l)))
      with (tokens x ++ TComma :: interleave TComma (map tokens (y :: l)))%list.
    rewrite <- List.app_assoc, Hx. cbn [deliver parse_from parse_step app].
    rewrite (IH y (x :: done) stk rest Hall). cbn [rev].
    now rewrite <- List.app_assoc.
Qed.

Lemma builds_entries l : forall k x acc stk rest,
  NoDup (map fst acc ++ k :: map fst l) ->
  Forall2 builds (map (fun kv => tokens (snd kv)) ((k, x) :: l)) (map snd ((k, x) :: l)) ->
  parse_from (interleave TComma (map entry_tokens ((k, x) :: l)) ++ TRBrace :: rest)
    (PObjKey acc stk)
  = parse_from rest (deliver (VDict (acc ++ (k, x) :: l)) stk).
Proof.
  induction l as [|[k' y] l IH]; intros k x acc stk rest Hnd Hall.
  - apply Forall2_cons_1 in Hall as [Hx _]. cbn [map interleave fst snd] in *.
    unfold entry_tokens. cbn [fst snd].
    cbn [parse_from parse_step app]. rewrite Hx. cbn [deliver parse_from parse_step].
    rewrite dict_set_fresh; [reflexivity|].
    apply NoDup_app in Hnd as (_ & Hnd & _). intros Hin. apply (Hnd k Hin). now left.
  - apply Forall2_cons_1 in Hall as [Hx Hall].
    change (interleave TComma (map entry_tokens ((k, x) :: (k', y) :: l)))
      with (entry_tokens (k, x) ++ TComma :: interleave TComma (map entry_tokens ((k', y) :: l)))%list.
    unfold entry_tokens at 1. cbn [fst snd] in *.
    cbn [parse_from parse_step app]. rewrite <- List.app_assoc, Hx.
    cbn [deliver parse_from parse_step app].
    rewrite dict_set_fresh.
    + rewrite (IH k' y (acc ++ [(k, x)])%list stk rest).
      * now rewrite <- List.app_assoc.
      * rewrite map_app, <- List.app_assoc. exact Hnd.
      * exact Hall.
    + apply NoDup_app in Hnd as (_ & Hnd & _). intros Hin. apply (Hnd k Hin). now left.
Qed.

Lemma tokens_head x :
  exists t ts, tokens x = t :: ts
    /\ forall stk, parse_step (PArrOpen stk) t = parse_step (PVal (FArr [] :: stk)) t.
Proof.
  destruct x as [| [] | z | s | items | entries]; cbn [tokens]; eexists _, _;
    (split; [reflexivity|]); reflexivity.
Qed.

Lemma interleave_head {A : Type} (sep : A) (ts : list A) (tss : list (list A)) :
  exists tail, interleave sep (ts :: tss) = (ts ++ tail)%list.
Proof.
  destruct tss as [|ts' tss].
  - exists []. cbn [interleave]. now rewrite app_nil_r.
  - eexists. reflexivity.
Qed.

Lemma parse_from_arr_open x l rest stk :
  parse_from (interleave TComma (map tokens (x :: l)) ++ rest) (PArrOpen stk)
  = parse_from (interleave TComma (map tokens (x :: l)) ++ rest) (PVal (FArr [] :: stk)).
Proof.
  cbn [map]. destruct (interleave_head TComma (tokens x) (map tokens l)) as [tail ->].
  destruct (tokens_head x) as (t & ts & -> & Ht).
  cbn [app parse_from]. now rewrite Ht.
Qed.

Lemma builds_tokens v : wf v = true -> builds (tokens v) v.
Proof.
  induction v as [| b | z | s | items IH | entries IH] using value_nested_ind;
    intros Hwf stk rest; try reflexivity.
  - now destruct b.
  - destruct items as [|x l]; [reflexivity|].
    assert (Forall2 builds (map tokens (x :: l)) (x :: l)) as Hall.
    { apply Forall2_fmap_l, Forall_Forall2_diag.
      cbn [wf] in Hwf. apply forallb_Forall in Hwf.
      rewrite Forall_forall in IH, Hwf |- *. intros y Hy. apply IH; auto. }
    change (tokens (VList (x :: l)))
      with (TLBrack :: interleave TComma (map tokens (x :: l)) ++ [TRBrack])%list.
    rewrite <- app_comm_cons, <- List.app_assoc.
    cbn [parse_from parse_step value_start].
    rewrite parse_from_arr_open.
    apply (builds_items l x [] stk rest Hall).
  - destruct entries as [|[k x] l]; [reflexivity|].
    cbn [wf] in Hwf. apply andb_true_iff in Hwf as [Hd Hwf].
    apply distinct_NoDup in Hd. apply forallb_Forall in Hwf.
    assert (Forall2 builds (map (fun kv => tokens (snd kv)) ((k, x) :: l))
              (map snd ((k, x) :: l))) as Hall.
    { apply Forall2_fmap, Forall_Forall2_diag.
      rewrite Forall_forall in IH, Hwf |- *. intros y Hy. apply IH; auto. }
    change (tokens (VDict ((k, x) :: l)))
      with (TLBrace :: interleave TComma (map entry_tokens ((k, x) :: l)) ++ [TRBrace])%list.
    rewrite <- app_comm_cons, <- List.app_assoc.
    cbn [parse_from parse_step value_start].
    pose proof (builds_entries l k x [] stk rest Hd Hall) as Hb.
    cbn [app] in Hb. rewrite <- Hb.
    cbn [map]. destruct (interleave_head TComma (entry_tokens (k, x)) (map entry_tokens l))
      as [tail ->].
    reflexivity.
Qed.

Lemma parse_tokens v : wf v = true -> parse (tokens v) = Some v.
Proof.
  intros Hwf. unfold parse.
  rewrite <- (app_nil_r (tokens v)), (builds_tokens v Hwf [] []). reflexivity.
Qed.

Lemma loads_raises s e : RefJson.loads s = Raise e -> e = JSONDecodeError.
Proof.
  unfold RefJson.loads. destruct (tokenize s) as [toks|]; [|congruence].
  destruct (parse toks); congruence.
Qed.

Lemma loads_encode indent level v :
  wf v = true -> RefJson.loads (encode indent level v) = Ok v.
Proof.
  intros Hwf. unfold RefJson.loads. now rewrite tokenize_encode, parse_tokens.
Qed.

(** ** The characters of the encoder's text *)

Lemma printable_escape_char c : all_chars printable (escape_char c) = true.
Proof. destruct c as [[] [] [] [] [] [] [] []]; reflexivity. Qed.

Lemma printable_escape s : all_chars printable (escape s) = true.
Proof.
  induction s as [|c s IH]; simpl; [reflexivity|].
  now rewrite all_chars_app, printable_escape_char, IH.
Qed.

Lemma printable_quote s : all_chars printable (quote s) = true.
Proof. unfold quote. simpl. now rewrite all_chars_app, printable_escape. Qed.

Lemma digit_printable c : is_digit c = true -> printable c = true.
Proof.
  unfold is_digit, printable. rewrite andb_true_iff, !Nat.leb_le. lia.
Qed.

Lemma digit_not_space c : is_digit c = true -> negb (is_space c) = true.
Proof.
  unfold is_digit, is_space.
  rewrite andb_true_iff, negb_true_iff, orb_false_iff, !andb_false_iff, !Nat.leb_le, !Nat.leb_gt.
  lia.
Qed.

Lemma str_of_int_chars (p : ascii -> bool) z :
  p "-"%char = true -> (forall c, is_digit c = true -> p c = true) ->
  all_chars p (str_of_int z) = true.
Proof.
  intros Hm Hd. unfold str_of_int.
  destruct (Z.to_int z) as [d|d]; simpl; [|rewrite Hm; simpl];
    apply (all_chars_impl is_digit p _ Hd), digits_of_uint_zero.
Qed.

Lemma str_of_int_nonempty z : str_of_int z <> "".
Proof.
  unfold str_of_int. destruct (Z.to_int z) as [d|d]; simpl; [|discriminate].
  destruct d; discriminate.
Qed.

(** Every character of the text is printable or belongs to the
    indentation. *)
Lemma encode_chars (p : ascii -> bool) indent v :
  (forall c, printable c = true -> p c = true) ->
  (forall level, all_chars p (newline_indent indent level) = true) ->
  forall level, all_chars p (encode indent level v) = true.
Proof.
  intros Hp Hnl.
  assert (forall s, all_chars printable s = true -> all_chars p s = true) as Hps.
  { intros s. now apply all_chars_impl. }
  induction v as [| b | z | s | items IH | entries IH] using value_nested_ind; intros level.
  - now apply Hps.
  - destruct b; now apply Hps.
  - apply str_of_int_chars; [now apply Hp | intros c Hc; apply Hp, digit_printable, Hc].
  - apply Hps, printable_quote.
  - destruct items as [|x l]; [now apply Hps|].
    change (encode indent level (VList (x :: l))) with
      ("[" ++ newline_indent indent (S level)
         ++ String.concat (item_separator indent ++ newline_indent indent (S level))
              (map (encode indent (S level)) (x :: l))
         ++ newline_indent indent level ++ "]").
    rewrite !all_chars_app, !Hnl, all_chars_concat, !Hps; try reflexivity.
    + rewrite all_chars_app, Hnl, Hps; [reflexivity | now destruct indent].
    + apply Forall_fmap. eapply Forall_impl; [exact IH|]. intros y Hy. apply Hy.
  - destruct entries as [|kx l]; [now apply Hps|].
    change (encode indent level (VDict (kx :: l))) with
      ("{" ++ newline_indent indent (S level)
         ++ String.concat (item_separator indent ++ newline_indent indent (S level))
              (map (fun kv => quote (fst kv) ++ ": " ++ encode indent (S level) (snd kv))
                 (kx :: l))
         ++ newline_indent indent level ++ "}").
    rewrite !all_chars_app, !Hnl, all_chars_concat, !Hps; try reflexivity.
    + rewrite all_chars_app, Hnl, Hps; [reflexivity | now destruct indent].
    + apply Forall_fmap. eapply Forall_impl; [exact IH|]. intros [k y] Hy.
      unfold compose. cbn [fst snd] in *.
      rewrite !all_chars_app, Hy, (Hps (quote k)), (Hps ": "); try reflexivity.
      apply printable_quote.
Qed.

Lemma dumps_no_char c v :
  printable c = false -> contains_char c (RefJson.dumps v) = false.
Proof.
  intros Hc. apply contains_char_all, encode_chars; [|reflexivity].
  intros d Hd. apply negb_true_iff, Ascii.eqb_neq. intros ->. congruence.
Qed.

Lemma dump_indent_no_cr v : contains_char CR (RefJson.dump_indent v) = false.
Proof.
  apply contains_char_all, encode_chars.
  - intros d Hd. apply negb_true_iff, Ascii.eqb_neq. intros <-. discriminate.
  - assert (forall n, all_chars (fun d => negb (Ascii.eqb CR d)) (spaces n) = true) as H.
    { induction n as [|n IH]; [reflexivity | exact IH]. }
    intros level. exact (H (2 * level)%nat).
Qed.

Lemma dumps_stripped v :
  ascii_strip (RefJson.dumps v) = RefJson.dumps v /\ RefJson.dumps v <> "".
Proof.
  unfold RefJson.dumps, ascii_strip.
  destruct v as [| [] | z | s | [|x l] | [|kx l]]; try (split; [reflexivity | discriminate]).
  - split; [|apply str_of_int_nonempty].
    apply strip_no_space, str_of_int_chars; [reflexivity | apply digit_not_space].
  - split; [|discriminate]. apply strip_bracketed; reflexivity.
  - change (encode None 0 (VList (x :: l))) with
      ("[" ++ String.concat ", " (map (encode None 1) (x :: l)) ++ "]").
    split; [|discriminate]. apply strip_bracketed; reflexivity.
  - change (encode None 0 (VDict (kx :: l))) with
      ("{" ++ String.concat ", "
                (map (fun kv => quote (fst kv) ++ ": " ++ encode None 1 (snd kv)) (kx :: l))
           ++ "}").
    split; [|discriminate]. apply strip_bracketed; reflexivity.
Qed.

End RefJsonFacts.

(** ** The reference strings

    [lower], [strip] and [int] as they are on texts of ASCII characters. *)

Lemma nat_of_lower_char c : nat_of_ascii (lower_char c) = lower_code (nat_of_ascii c).
Proof.
  unfold lower_char, lower_code, is_upper.
  destruct ((65 <=? nat_of_ascii c)%nat && (nat_of_ascii c <=? 90)%nat) eqn:E; [|reflexivity].
  apply nat_ascii_embedding.
  apply andb_true_iff in E as [_ E]. apply Nat.leb_le in E. lia.
Qed.

Lemma ascii_eq_code c d : c = d <-> nat_of_ascii c = nat_of_ascii d.
Proof.
  split; [now intros -> | intros H].
  now rewrite <- (ascii_nat_embedding c), <- (ascii_nat_embedding d), H.
Qed.

Lemma lower_char_same c d : lower_char c = lower_char d <-> same_letter c d = true.
Proof.
  unfold same_letter.
  rewrite !orb_true_iff, !andb_true_iff, !Ascii.eqb_eq, !ascii_eq_code, !nat_of_lower_char.
  unfold is_upper, lower_code.
  destruct (Nat.leb_spec 65 (nat_of_ascii c)); destruct (Nat.leb_spec (nat_of_ascii c) 90);
    destruct (Nat.leb_spec 65 (nat_of_ascii d)); destruct (Nat.leb_spec (nat_of_ascii d) 90);
    cbn [andb];
    intuition (try discriminate; lia).
Qed.

(** Two strings have the same lower-case form exactly when they differ in
    the case of letters only. *)
Lemma lower_eq_ignoring_case s t :
  ascii_lower s = ascii_lower t <-> equal_ignoring_case s t = true.
Proof.
  revert t. induction s as [|c s IH]; intros [|d t]; simpl; try (split; congruence).
  rewrite andb_true_iff, <- IH, <- lower_char_same. split; [intros [= -> ->] | intros [-> ->]]; auto.
Qed.

Lemma digits_from_acc (d : Decimal.uint) : forall acc,
  digits_from (Z.pos acc) true (NilEmpty.string_of_uint d) = Some (Z.pos (Pos.of_uint_acc d acc)).
Proof.
  induction d; intros acc; cbn [NilEmpty.string_of_uint Pos.of_uint_acc digits_from];
    try reflexivity;
    match goal with
    | |- context [is_digit ?c] => change (is_digit c) with true; cbv iota
    end;
    rewrite <- IHd; f_equal; unfold digit_val;
    match goal with
    | |- context [nat_of_ascii ?c] =>
        let n := eval vm_compute in (nat_of_ascii c) in change (nat_of_ascii c) with n
    end; lia.
Qed.

Lemma digits_from_zero (d : Decimal.uint) :
  digits_from 0 true (NilEmpty.string_of_uint d) = Some (Z.of_N (Pos.of_uint d)).
Proof.
  induction d; cbn [NilEmpty.string_of_uint Pos.of_uint digits_from]; try reflexivity;
    match goal with
    | |- context [is_digit ?c] => change (is_digit c) with true; cbv iota
    end;
    try exact IHd;
    match goal with
    | |- digits_from ?a true _ = _ =>
        let p := eval cbv in a in
        change a with p; rewrite digits_from_acc; reflexivity
    end.
Qed.

Lemma digits_from_start (d : Decimal.uint) :
  d <> Decimal.Nil ->
  digits_from 0 false (NilEmpty.string_of_uint d) = digits_from 0 true (NilEmpty.string_of_uint d).
Proof. destruct d; [congruence | reflexivity ..]. Qed.

Lemma digits_of_uint_text (d : Decimal.uint) :
  d <> Decimal.Nil ->
  digits_from 0 false (NilZero.string_of_uint d) = Some (Z.of_uint d).
Proof.
  intros Hd. unfold Z.of_uint. rewrite <- digits_from_zero, <- digits_from_start by exact Hd.
  now destruct d.
Qed.

Lemma ascii_int_digit_first (c : ascii) (s : string) :
  is_digit c = true ->
  match String c s with
  | String "-" s' => option_map Z.opp (digits_from 0 false s')
  | String "+" s' => digits_from 0 false s'
  | s' => digits_from 0 false s'
  end = digits_from 0 false (String c s).
Proof. destruct c as [[] [] [] [] [] [] [] []]; try discriminate; reflexivity. Qed.

Lemma digit_not_c_space c : is_digit c = true -> negb (is_c_space c) = true.
Proof.
  unfold is_digit, is_c_space. cbv zeta. rewrite andb_true_iff, !Nat.leb_le. intros [H1 H2].
  apply negb_true_iff, orb_false_iff. split.
  - apply andb_false_iff. right. apply Nat.leb_gt. lia.
  - apply Nat.eqb_neq. lia.
Qed.

(** [int(str(z))] is [z]. *)
Lemma ascii_int_of_int (z : Z) : ascii_int (str_of_int z) = Some z.
Proof.
  unfold ascii_int.
  rewrite strip_no_space
    by (apply RefJsonFacts.str_of_int_chars; [reflexivity | apply digit_not_c_space]).
  rewrite <- (DecimalZ.of_to z) at 2. unfold str_of_int.
  destruct (RefJsonFacts.to_int_proper z) as [Hp Hn].
  destruct (Z.to_int z) as [d|d]; cbn [NilZero.string_of_int Z.of_int].
  - assert (d <> Decimal.Nil) as Hd by congruence.
    pose proof (RefJsonFacts.digits_of_uint_zero d) as Hdig.
    destruct (NilZero.string_of_uint d) as [|c s] eqn:E; [now destruct d|].
    cbn [all_chars] in Hdig. apply andb_true_iff in Hdig as [Hc _].
    rewrite (ascii_int_digit_first c s Hc), <- E. now apply digits_of_uint_text.
  - assert (d <> Decimal.Nil) as Hd by congruence.
    rewrite (digits_of_uint_text d Hd). reflexivity.
Qed.

#[export] Instance reference_str : PyStr := {|
  lower := ascii_lower;
  strip := ascii_strip;
  int_of_str := ascii_int;
  lower_letters := fun s t => proj2 (lower_eq_ignoring_case s t);
  strip_line := fun s => strip_of_line is_space s eq_refl;
  int_of_str_of_int := ascii_int_of_int
|}.

(** The reference codec meets what the program relies on. *)
#[export] Instance reference_codec : JsonCodec := {|
  dumps := RefJson.dumps;
  dump_indent := RefJson.dump_indent;
  loads := RefJson.loads;
  loads_raises := RefJsonFacts.loads_raises;
  loads_dumps := RefJsonFacts.loads_encode None 0;
  loads_dump_indent := RefJsonFacts.loads_encode (Some 2%nat) 0;
  dumps_one_line := fun v =>
    conj (RefJsonFacts.dumps_no_char LF v eq_refl) (RefJsonFacts.dumps_no_char CR v eq_refl);
  dumps_stripped := RefJsonFacts.dumps_stripped;
  dump_indent_no_cr := RefJsonFacts.dump_indent_no_cr
|}.

(** * The claims *)

(** ** Removing a video *)

(** C5: [Playlist.remove_video] never raises and keeps the name and the id;
    with an index outside [0, length), negative ones included, the playlist
    is unchanged; with an index inside, exactly the video at that position
    goes and the others keep their order. *)
Theorem remove_video_spec (pl : Playlist) (index : Z) :
  let r := Playlist.remove_video index pl in
  outcome r = Ok tt
  /\ playListName (state_after r) = playListName pl
  /\ plID (state_after r) = plID pl
  /\ (~ (0 <= index < Z.of_nat (length (videos pl))) -> state_after r = pl)
  /\ (0 <= index < Z.of_nat (length (videos pl)) ->
      videos (state_after r)
      = (take (Z.to_nat index) (videos pl) ++ drop (S (Z.to_nat index)) (videos pl))%list).
Proof.
  unfold Playlist.remove_video, abind, read, lift, list_del, set_videos, ret,
    outcome, state_after.
  cbv zeta.
  destruct (0 <=? index) eqn:E0; destruct (index <? Z.of_nat (length (videos pl))) eqn:E1;
    cbn [andb fst snd];
    try apply Z.leb_le in E0; try apply Z.leb_gt in E0;
    try apply Z.ltb_lt in E1; try apply Z.ltb_ge in E1;
    try (repeat split; try reflexivity; intros; try reflexivity; lia).
  assert ((index <? 0) = false) as -> by (apply Z.ltb_ge; lia).
  assert ((0 <=? index) && (index <? Z.of_nat (length (videos pl))) = true) as ->.
  { apply andb_true_iff. split; [now apply Z.leb_le | now apply Z.ltb_lt]. }
  cbn [fst snd videos playListName plID].
  repeat split; try reflexivity; [lia|].
  intros _. apply delete_take_drop.
Qed.

Lemma remove_video_spec_witness :
  videos (state_after (Playlist.remove_video 0 tutorials))
  = [mkVideo (VStr "Second part") 45 0].
Proof.
  apply (proj2 (proj2 (proj2 (proj2 (remove_video_spec tutorials 0))))). cbn. lia.
Defined.

Example remove_video_positions :
  let a := mkVideo (VStr "a") 1 0 in
  let b := mkVideo (VStr "b") 2 0 in
  let c := mkVideo (VStr "c") 3 0 in
  let pl := mkPlaylist (VStr "p") (VInt 1) [a; b; c] in
  Playlist.remove_video 1 pl = (Ok tt, mkPlaylist (VStr "p") (VInt 1) [a; c])
  /\ Playlist.remove_video (-1) pl = (Ok tt, pl)
  /\ Playlist.remove_video 3 pl = (Ok tt, pl).
Proof. repeat split. Qed.

(** C6, as the code has it: with nothing selected [App.delete_playlist]
    changes nothing; with a selected index inside [0, length) it removes
    the playlist at that position; the index is not checked, so a negative
    index down to [-length] removes the playlist counted from the end, and
    any other index raises [IndexError] and changes nothing. *)
Theorem delete_playlist_spec (app : App) (sel : list Z) :
  let pls := playlists (channel app) in
  let n := Z.of_nat (length pls) in
  let without i := mkApp (mkChannel (name (channel app)) (delete i pls)) (next_playlist_id app) in
  match sel with
  | [] => App.delete_playlist sel app = (Ok tt, app)
  | idx :: _ =>
      (0 <= idx < n -> App.delete_playlist sel app = (Ok tt, without (Z.to_nat idx)))
      /\ (- n <= idx < 0 -> App.delete_playlist sel app = (Ok tt, without (Z.to_nat (idx + n))))
      /\ (idx < - n \/ n <= idx -> App.delete_playlist sel app = (Raise IndexError, app))
  end.
Proof.
  cbv zeta. destruct sel as [|idx sel]; [reflexivity|].
  unfold App.delete_playlist, abind, read, lift, write, list_del.
  destruct (idx <? 0) eqn:E; [apply Z.ltb_lt in E | apply Z.ltb_ge in E].
  - repeat split; intros Hi; try lia.
    + assert ((0 <=? idx + Z.of_nat (length (playlists (channel app))))
              && (idx + Z.of_nat (length (playlists (channel app)))
                  <? Z.of_nat (length (playlists (channel app)))) = true) as ->; [|reflexivity].
      apply andb_true_iff. split; [apply Z.leb_le | apply Z.ltb_lt]; lia.
    + assert ((0 <=? idx + Z.of_nat (length (playlists (channel app))))
              && (idx + Z.of_nat (length (playlists (channel app)))
                  <? Z.of_nat (length (playlists (channel app)))) = false) as ->; [|reflexivity].
      apply andb_false_iff. left. apply Z.leb_gt. lia.
  - repeat split; intros Hi; try lia.
    + assert ((0 <=? idx) && (idx <? Z.of_nat (length (playlists (channel app)))) = true)
        as ->; [|reflexivity].
      apply andb_true_iff. split; [apply Z.leb_le | apply Z.ltb_lt]; lia.
    + assert ((0 <=? idx) && (idx <? Z.of_nat (length (playlists (channel app)))) = false)
        as ->; [|reflexivity].
      apply andb_false_iff. right. apply Z.ltb_ge. lia.
Qed.

Lemma delete_playlist_spec_witness :
  App.delete_playlist [0] app_ab
  = (Ok tt, mkApp (mkChannel (VStr "Elsayed Channel") [playlist_b]) 3).
Proof.
  apply (proj1 (delete_playlist_spec app_ab [0])). cbn. lia.
Defined.

(** C6 as stated fails: the index -1 removes the last playlist, and the index
    2 of a list of two raises [IndexError]. *)
Lemma delete_playlist_unchecked_index :
  App.delete_playlist [-1] app_ab
  = (Ok tt, mkApp (mkChannel (VStr "Elsayed Channel") [playlist_a]) 3)
  /\ state_after (App.delete_playlist [-1] app_ab) <> app_ab
  /\ App.delete_playlist [2] app_ab = (Raise IndexError, app_ab).
Proof. repeat split. discriminate. Qed.

(** ** Rendering a video *)

(** C9: for a video with a string title and a duration that is not
    negative, the text is the title, the duration and the views joined by
    dashes; the duration shows minutes and seconds from 60 seconds on, and
    seconds only below. *)
Theorem video_str_format (t : string) (d w : Z) :
  0 <= d ->
  exists dur,
    Video.__str__ (mkVideo (VStr t) d w) = t ++ " — " ++ dur ++ " — " ++ str_of_int w ++ " views"
    /\ (60 <= d -> dur = str_of_int (d / 60) ++ "m" ++ str_of_int (d mod 60) ++ "s")
    /\ (d < 60 -> dur = str_of_int d ++ "s").
Proof.
  intros Hd. unfold Video.__str__. cbn [title duration views py_str].
  destruct (d / 60 =? 0) eqn:E; eexists; (split; [reflexivity|]).
  - apply Z.eqb_eq in E.
    assert (d < 60) as Hlt.
    { destruct (Z.lt_ge_cases d 60) as [Hlt|Hge]; [exact Hlt|].
      pose proof (Z.div_le_mono 60 d 60 ltac:(lia) Hge) as Hq.
      change (60 / 60) with 1 in Hq. lia. }
    split; [lia|]. intros _. now rewrite Z.mod_small by lia.
  - apply Z.eqb_neq in E. split; [reflexivity|].
    intros Hlt. exfalso. apply E. apply Z.div_small. lia.
Qed.

Lemma video_str_format_witness :
  0 <= 125 /\
  exists dur,
    Video.__str__ (mkVideo (VStr "Intro") 125 10)
      = "Intro" ++ " — " ++ dur ++ " — " ++ str_of_int 10 ++ " views"
    /\ (60 <= 125 -> dur = str_of_int (125 / 60) ++ "m" ++ str_of_int (125 mod 60) ++ "s")
    /\ (125 < 60 -> dur = str_of_int 125 ++ "s").
Proof. split; [lia | apply (video_str_format "Intro" 125 10); lia]. Defined.

Example video_str_125 :
  Video.__str__ (mkVideo (VStr "Intro") 125 10) = "Intro — 2m5s — 10 views".
Proof. reflexivity. Qed.

Example video_str_45 :
  Video.__str__ (mkVideo (VStr "Clip") 45 7) = "Clip — 45s — 7 views".
Proof. reflexivity. Qed.

Example video_str_0 :
  Video.__str__ (mkVideo (VStr "Empty") 0 0) = "Empty — 0s — 0 views".
Proof. reflexivity. Qed.

(** ** Searching a playlist by name *)

Lemma search_from_step `{PyStr} (q : string) (pl : Playlist) (rest : list Playlist)
    (s : string) :
  playListName pl = VStr s ->
  Channel.search_from (lower q) (pl :: rest)
  = if String.eqb (lower s) (lower q) then Ok (Some pl) else Channel.search_from (lower q) rest.
Proof. intros Hs. cbn [Channel.search_from]. rewrite Hs. reflexivity. Qed.

(** C7: on a channel whose playlists have string names,
    [Channel.search_playlist] returns without error; it returns a playlist
    exactly when that playlist is the first one, in the order of the
    sequence, whose name equals the query up to the case of letters, that
    is, has the lower-case form of the query; it returns [None] exactly
    when no name does; and a name that differs from the query in the case
    of the letters A to Z only is such a name. *)
Theorem search_playlist_first_match `{PyStr} (ch : Channel) (query : string) :
  forallb (fun p => is_str (playListName p)) (playlists ch) = true ->
  (exists r, Channel.search_playlist ch query = Ok r)
  /\ (forall pl, Channel.search_playlist ch query = Ok (Some pl) <->
        exists before after,
          playlists ch = (before ++ pl :: after)%list
          /\ matches query pl
          /\ Forall (fun p => ~ matches query p) before)
  /\ (Channel.search_playlist ch query = Ok None <->
        Forall (fun p => ~ matches query p) (playlists ch))
  /\ (forall pl s, playListName pl = VStr s -> equal_ignoring_case s query = true ->
        matches query pl).
Proof.
  intros Hstr.
  assert (forall pl s, playListName pl = VStr s -> equal_ignoring_case s query = true ->
                       matches query pl) as Hcase.
  { intros pl s Hs E. exists s. split; [exact Hs | now apply lower_letters]. }
  cut ((exists r, Channel.search_playlist ch query = Ok r)
       /\ (forall pl, Channel.search_playlist ch query = Ok (Some pl) <->
             exists before after,
               playlists ch = (before ++ pl :: after)%list
               /\ matches query pl
               /\ Forall (fun p => ~ matches query p) before)
       /\ (Channel.search_playlist ch query = Ok None <->
             Forall (fun p => ~ matches query p) (playlists ch))); [tauto|].
  clear Hcase. revert Hstr.
  unfold Channel.search_playlist. generalize (playlists ch). clear ch.
  intros pls Hstr. apply forallb_Forall in Hstr. induction Hstr as [|p pls Hp Hstr IH].
  - cbn [Channel.search_from]. split; [eauto|]. split.
    + intros pl. split; [discriminate|].
      intros (before & after & E & _). now destruct before.
    + split; [constructor | reflexivity].
  - destruct (playListName p) as [| | |s| |] eqn:Hs; try discriminate.
    rewrite (search_from_step query p pls s Hs).
    destruct IH as (IH1 & IH2 & IH3).
    destruct (String.eqb_spec (lower s) (lower query)) as [E|E].
    + split; [eauto|]. split.
      * intros pl. split.
        -- intros [= <-]. exists [], pls. repeat split; [|constructor]. now exists s.
        -- intros (before & after & Heq & Hm & Hbefore).
           destruct before as [|b before].
           ++ now injection Heq as ->.
           ++ injection Heq as <- _. apply Forall_cons in Hbefore as [Hb _].
              exfalso. apply Hb. now exists s.
      * split; [discriminate|]. intros Hall. apply Forall_cons in Hall as [Hall _].
        exfalso. apply Hall. now exists s.
    + assert (~ matches query p) as Hnm.
      { intros (s' & Hs' & E'). congruence. }
      split; [exact IH1|]. split.
      * intros pl. rewrite IH2. split.
        -- intros (before & after & -> & Hm & Hbefore).
           exists (p :: before), after. repeat split; [exact Hm|]. now constructor.
        -- intros (before & after & Heq & Hm & Hbefore).
           destruct before as [|b before].
           ++ injection Heq as -> _. contradiction.
           ++ injection Heq as <- ->. apply Forall_cons in Hbefore as [_ Hbefore].
              now exists before, after.
      * rewrite IH3, Forall_cons. tauto.
Qed.

(** Searching for "Music" finds the playlist named "music", which stands
    before the one named "MUSIC". *)
Lemma search_playlist_first_match_witness :
  forallb (fun p => is_str (playListName p)) (playlists channel_ab) = true
  /\ Channel.search_playlist channel_ab "Music" = Ok (Some playlist_a).
Proof.
  split; [reflexivity|].
  apply (proj1 (proj2 (search_playlist_first_match channel_ab "Music" eq_refl))).
  exists [], [playlist_b]. repeat split; [|constructor].
  exists "music". split; reflexivity.
Defined.

(** ** Records and documents *)

Lemma video_of_record_asdict `{PyStr} (v : Video) : video_of_record (asdict v) = Ok v.
Proof. now destruct v. Qed.

Lemma traverse_video_records `{PyStr} (vs : list Video) :
  traverse video_of_record (map asdict vs) = Ok vs.
Proof.
  induction vs as [|v vs IH]; [reflexivity|].
  cbn [map traverse]. now rewrite video_of_record_asdict, IH.
Qed.

Lemma from_dict_to_dict `{PyStr} (p : Playlist) : Playlist.from_dict (Playlist.to_dict p) = Ok p.
Proof.
  destruct p as [n i vs]. unfold Playlist.from_dict, Playlist.to_dict.
  cbn. now rewrite traverse_video_records.
Qed.

Lemma traverse_from_dict `{PyStr} (ps : list Playlist) :
  traverse Playlist.from_dict (map Playlist.to_dict ps) = Ok ps.
Proof.
  induction ps as [|p ps IH]; [reflexivity|].
  cbn [map traverse]. now rewrite from_dict_to_dict, IH.
Qed.

Lemma traverse_raises {A B : Type} (f : A -> result B) (xs : list A) (x : A) (e : exn) :
  In x xs -> f x = Raise e -> exists e', traverse f xs = Raise e'.
Proof.
  intros Hin Hx. induction xs as [|y xs IH]; [contradiction|].
  cbn [traverse]. destruct (f y) as [b|e'] eqn:Hy; [|now exists e'].
  destruct Hin as [->|Hin]; [congruence|].
  destruct (IH Hin) as [e' ->]. now exists e'.
Qed.

Lemma is_str_wf (x : value) : is_str x = true -> wf x = true.
Proof. now destruct x. Qed.

Lemma is_int_wf (x : value) : is_int x = true -> wf x = true.
Proof. now destruct x. Qed.

Lemma wf_asdict (v : Video) : typed_video v = true -> wf (asdict v) = true.
Proof.
  unfold typed_video. intros H. cbn. now rewrite (is_str_wf _ H).
Qed.

Lemma wf_asdicts (vs : list Video) :
  forallb typed_video vs = true -> forallb wf (map asdict vs) = true.
Proof.
  induction vs as [|v vs IH]; [reflexivity|].
  cbn [forallb map]. rewrite !andb_true_iff. intros [Hv Hvs].
  split; [now apply wf_asdict | now apply IH].
Qed.

Lemma wf_to_dict (p : Playlist) : typed_playlist p = true -> wf (Playlist.to_dict p) = true.
Proof.
  unfold typed_playlist. rewrite !andb_true_iff. intros [[Hn Hi] Hvs].
  unfold Playlist.to_dict.
  change (wf (VDict [("playListName", playListName p); ("plID", plID p);
                     ("videos", VList (map asdict (videos p)))]))
    with (true && (wf (playListName p) && (wf (plID p)
            && (forallb wf (map asdict (videos p)) && true)))).
  now rewrite (is_str_wf _ Hn), (is_int_wf _ Hi), (wf_asdicts _ Hvs).
Qed.

Lemma wf_document (c : Channel) : typed_channel c = true -> wf (Channel.document c) = true.
Proof.
  unfold typed_channel. rewrite andb_true_iff. intros [Hn Hps].
  unfold Channel.document.
  change (wf (VDict [("name", name c);
                     ("playlists", VList (map Playlist.to_dict (playlists c)))]))
    with (true && (wf (name c) && (forallb wf (map Playlist.to_dict (playlists c)) && true))).
  rewrite (is_str_wf _ Hn). cbn [andb]. rewrite andb_true_r.
  induction (playlists c) as [|p ps IH]; [reflexivity|].
  cbn [forallb map] in *. apply andb_true_iff in Hps as [Hp Hps].
  now rewrite (wf_to_dict _ Hp), IH.
Qed.

(** C3: a video with a string title, encoded to its record and decoded,
    is the video again; so it is when the record goes through its JSON
    text. *)
Theorem video_record_roundtrip `{JsonCodec} (t : string) (d w : Z) :
  let v := mkVideo (VStr t) d w in
  video_of_record (asdict v) = Ok v
  /\ (let* data := loads (dumps (asdict v)) in video_of_record data) = Ok v.
Proof.
  cbv zeta. split; [reflexivity|].
  rewrite loads_dumps by reflexivity. reflexivity.
Qed.

(** The record of a video through the text of the reference codec. *)
Lemma video_record_roundtrip_witness :
  (let* data := RefJson.loads (RefJson.dumps (asdict (mkVideo (VStr "Intro") 125 10))) in
   video_of_record data) = Ok (mkVideo (VStr "Intro") 125 10).
Proof. exact (proj2 (@video_record_roundtrip reference_str reference_codec "Intro" 125 10)). Defined.

Example video_record_text :
  RefJson.dumps (asdict (mkVideo (VStr "Intro") 125 10))
  = "{" ++ RefJson.quote "title" ++ ": " ++ RefJson.quote "Intro" ++ ", "
        ++ RefJson.quote "duration" ++ ": 125, " ++ RefJson.quote "views" ++ ": 10}".
Proof. reflexivity. Qed.

(** ** The playlist file *)

Section PlaylistFile.

Context `{JsonCodec}.

Lemma concat_empty_cons (x : string) (l : list string) :
  String.concat "" (x :: l) = x ++ String.concat "" l.
Proof. destruct l; [cbn; now rewrite append_nil_r | reflexivity]. Qed.

Lemma contains_char_app c s1 s2 :
  contains_char c (s1 ++ s2) = contains_char c s1 || contains_char c s2.
Proof.
  induction s1 as [|d s1 IH]; [reflexivity|].
  cbn [append contains_char]. now rewrite IH, orb_assoc.
Qed.

Lemma video_lines_no_cr (vs : list Video) :
  contains_char CR (String.concat "" (map Playlist.video_line vs)) = false.
Proof.
  induction vs as [|v vs IH]; [reflexivity|].
  cbn [map]. rewrite concat_empty_cons, contains_char_app, IH.
  unfold Playlist.video_line. rewrite contains_char_app, (proj2 (dumps_one_line _)). reflexivity.
Qed.

Lemma splitlines_video_lines (vs : list Video) :
  splitlines (String.concat "" (map Playlist.video_line vs)) = map Playlist.video_line vs.
Proof.
  induction vs as [|v vs IH]; [reflexivity|].
  cbn [map]. rewrite concat_empty_cons. unfold Playlist.video_line at 1.
  rewrite append_assoc. cbn [append].
  rewrite splitlines_line by apply dumps_one_line. now rewrite IH.
Qed.

Lemma file_lines_video_lines (vs : list Video) :
  file_lines (String.concat "" (map Playlist.video_line vs)) = map Playlist.video_line vs.
Proof.
  unfold file_lines. rewrite universal_newlines_id by apply video_lines_no_cr.
  apply splitlines_video_lines.
Qed.

Lemma strip_video_line (v : Video) : strip (Playlist.video_line v) = dumps (asdict v).
Proof. apply strip_line; apply dumps_stripped. Qed.

Lemma load_lines_video_lines (vs : list Video) : forall pl,
  forallb typed_video vs = true ->
  Playlist.load_lines (map Playlist.video_line vs) pl
  = (Ok tt, mkPlaylist (playListName pl) (plID pl) (videos pl ++ vs)).
Proof.
  induction vs as [|v vs IH]; intros pl Hvs.
  - cbn. rewrite app_nil_r. now destruct pl.
  - cbn [forallb] in Hvs. apply andb_true_iff in Hvs as [Hv Hvs].
    cbn [map Playlist.load_lines]. rewrite strip_video_line.
    destruct (String.eqb_spec (dumps (asdict v)) "") as [E|_].
    { now apply dumps_stripped in E. }
    unfold abind at 1, lift at 1. rewrite (loads_dumps _ (wf_asdict v Hv)).
    unfold abind at 1, lift at 1. rewrite video_of_record_asdict.
    unfold abind at 1. unfold Playlist.add_video, abind, read, set_videos.
    rewrite IH by exact Hvs. cbn [playListName plID videos].
    now rewrite <- List.app_assoc.
Qed.

End PlaylistFile.

Lemma load_playlist_cases `{JsonCodec} (fs : filesystem) (filename : string) (self : Playlist) :
  Playlist.load_playlist_from_file fs filename self
  = match files fs !! filename with
    | Some text =>
        Playlist.load_lines (file_lines text) (mkPlaylist (playListName self) (plID self) [])
    | None =>
        match undecodable fs !! filename with
        | Some lines =>
            match Playlist.load_lines lines (mkPlaylist (playListName self) (plID self) []) with
            | (Ok _, pl) => (Raise UnicodeDecodeError, pl)
            | (Raise e, pl) => (Raise e, pl)
            end
        | None => (Raise FileNotFoundError, mkPlaylist (playListName self) (plID self) [])
        end
    end.
Proof.
  unfold Playlist.load_playlist_from_file, abind, lift, open_lines, set_videos, ret.
  destruct (files fs !! filename) as [text|]; cbn [lines_read decode_error].
  - now destruct (Playlist.load_lines (file_lines text)
                    (mkPlaylist (playListName self) (plID self) [])) as [[[]|e] pl].
  - destruct (undecodable fs !! filename) as [lines|]; cbn [lines_read decode_error];
      [|reflexivity].
    now destruct (Playlist.load_lines lines (mkPlaylist (playListName self) (plID self) []))
      as [[[]|e] pl].
Qed.

(** C4: a playlist whose videos have string titles, saved to a writable
    path and loaded from it into a fresh playlist of the same name and id,
    is the playlist again, its videos in their order. *)
Theorem playlist_file_roundtrip `{JsonCodec} (fs : filesystem) (filename : string) (pl : Playlist) :
  writable fs filename = true ->
  forallb typed_video (videos pl) = true ->
  exists fs',
    Playlist.save_playlist_to_file pl filename fs = (Ok tt, fs')
    /\ Playlist.load_playlist_from_file fs' filename
         (Playlist.__init__ (playListName pl) (plID pl)) = (Ok tt, pl).
Proof.
  intros Hw Hvs. unfold Playlist.save_playlist_to_file, write_file. rewrite Hw.
  eexists. split; [reflexivity|].
  rewrite load_playlist_cases. unfold Playlist.__init__.
  cbn [files playListName plID]. rewrite lookup_insert_eq.
  rewrite file_lines_video_lines, load_lines_video_lines by exact Hvs.
  now destruct pl.
Qed.

Lemma playlist_file_roundtrip_witness :
  exists fs',
    Playlist.save_playlist_to_file tutorials "tutorials.txt" empty_fs = (Ok tt, fs')
    /\ Playlist.load_playlist_from_file fs' "tutorials.txt"
         (Playlist.__init__ (VStr "Tutorials") (VInt 1)) = (Ok tt, tutorials).
Proof.
  apply (playlist_file_roundtrip empty_fs "tutorials.txt" tutorials); reflexivity.
Defined.

(** ** The channel document *)

(** C1: a channel whose names and titles are strings and whose ids are
    integers, saved to a writable path and loaded from it into any channel,
    is the channel again: its name and its playlists with their names, ids
    and videos, in their order. *)
Theorem channel_roundtrip `{JsonCodec} (fs : filesystem) (filename : string)
    (ch other : Channel) :
  writable fs filename = true ->
  typed_channel ch = true ->
  exists fs',
    Channel.to_json ch filename fs = (Ok tt, fs')
    /\ Channel.load_json fs' filename other = (Ok tt, ch).
Proof.
  intros Hw Hty. unfold Channel.to_json, write_file. rewrite Hw.
  eexists. split; [reflexivity|].
  unfold Channel.load_json, abind at 1, lift at 1, open_read.
  cbn [files]. rewrite lookup_insert_eq.
  unfold read_text. rewrite universal_newlines_id by apply dump_indent_no_cr.
  unfold abind at 1, lift at 1. rewrite (loads_dump_indent _ (wf_document ch Hty)).
  unfold Channel.playlists_of, Channel.document. cbn.
  rewrite traverse_from_dict. cbn. now destruct ch.
Qed.

Lemma channel_roundtrip_witness :
  exists fs',
    Channel.to_json test_channel "channel.json" empty_fs = (Ok tt, fs')
    /\ Channel.load_json fs' "channel.json" (Channel.__init__ (VStr "My Channel"))
       = (Ok tt, test_channel).
Proof.
  apply (channel_roundtrip empty_fs "channel.json" test_channel); reflexivity.
Defined.

(** ** Missing keys *)

Lemma load_json_parsed `{JsonCodec} (fs : filesystem) (filename text : string)
    (obj : list (string * value)) (self : Channel) :
  files fs !! filename = Some text ->
  loads (read_text text) = Ok (VDict obj) ->
  Channel.load_json fs filename self
  = let n := match dict_lookup "name" obj with Some n => n | None => name self end in
    match Channel.playlists_of (VDict obj) with
    | Ok pls => (Ok tt, mkChannel n pls)
    | Raise e => (Raise e, mkChannel n (playlists self))
    end.
Proof.
  intros Hf Hobj. unfold Channel.load_json, abind at 1, lift at 1, open_read. rewrite Hf.
  unfold abind at 1, lift at 1. rewrite Hobj.
  unfold abind, read, lift, set_name, set_playlists, get.
  destruct (dict_lookup "name" obj); destruct (Channel.playlists_of (VDict obj)); reflexivity.
Qed.

Lemma load_json_unparsed `{JsonCodec} (fs : filesystem) (filename text : string)
    (e : exn) (self : Channel) :
  files fs !! filename = Some text ->
  loads (read_text text) = Raise e ->
  Channel.load_json fs filename self = (Raise JSONDecodeError, self).
Proof.
  intros Hf He. unfold Channel.load_json, abind at 1, lift at 1, open_read. rewrite Hf.
  unfold abind at 1, lift at 1. rewrite He. now rewrite (loads_raises _ _ He).
Qed.

(** C8, as the code has it: for a channel document that is a JSON object,
    a missing [name] is no error of its own and the channel keeps its name:
    the load succeeds exactly when the playlist entries decode, and leaves
    the channel as it was when they do not; a missing [playlists] is no
    error and the channel gets the empty sequence; a text that is not JSON
    raises the format error and leaves the channel as it was. *)
Theorem load_json_missing_keys `{JsonCodec} (fs : filesystem) (filename text : string)
    (self : Channel) :
  files fs !! filename = Some text ->
  (forall obj,
      loads (read_text text) = Ok (VDict obj) ->
      dict_lookup "name" obj = None ->
      Channel.load_json fs filename self
      = match Channel.playlists_of (VDict obj) with
        | Ok pls => (Ok tt, mkChannel (name self) pls)
        | Raise e => (Raise e, self)
        end)
  /\ (forall obj,
      loads (read_text text) = Ok (VDict obj) ->
      dict_lookup "playlists" obj = None ->
      Channel.load_json fs filename self
      = (Ok tt, mkChannel (match dict_lookup "name" obj with
                           | Some n => n
                           | None => name self
                           end) []))
  /\ (forall e,
      loads (read_text text) = Raise e ->
      Channel.load_json fs filename self = (Raise JSONDecodeError, self)).
Proof.
  intros Hf. repeat split.
  - intros obj Hobj Hname.
    rewrite (load_json_parsed fs filename text obj self Hf Hobj), Hname.
    destruct (Channel.playlists_of (VDict obj)); [reflexivity | now destruct self].
  - intros obj Hobj Hpls.
    rewrite (load_json_parsed fs filename text obj self Hf Hobj).
    unfold Channel.playlists_of, get. rewrite Hpls. reflexivity.
  - intros e He. exact (load_json_unparsed fs filename text e self Hf He).
Qed.

(** The document [{}] has neither key: the channel keeps its name and has
    no playlist. *)
Lemma load_json_missing_keys_witness :
  Channel.load_json (fs_with "channel.json" "{}") "channel.json" test_channel
  = (Ok tt, mkChannel (VStr "Test") []).
Proof.
  apply (proj1 (proj2 (load_json_missing_keys (fs_with "channel.json" "{}") "channel.json" "{}"
                         test_channel eq_refl)) []); reflexivity.
Defined.

(** C8 as stated fails: a document that is valid JSON and has no [name],
    one of whose playlist entries has no id, does not load. *)
Lemma load_json_missing_name_fails :
  exists obj,
    RefJson.loads (read_text missing_name_document) = Ok (VDict obj)
    /\ dict_lookup "name" obj = None
    /\ Channel.load_json (fs_with "channel.json" missing_name_document) "channel.json"
         test_channel
       = (Raise (KeyError "plID"), test_channel).
Proof.
  exists [("playlists", VList [VDict [("playListName", VStr "Tutorials")]])].
  repeat split.
Qed.

Example load_json_malformed :
  Channel.load_json (fs_with "channel.json" "{name: }") "channel.json" test_channel
  = (Raise JSONDecodeError, test_channel).
Proof. reflexivity. Qed.

(** C10: [Playlist.from_dict] gives the empty video sequence to a
    document without [videos], and raises [KeyError] for a document without
    [playListName] or without [plID]; [Channel.load_json] therefore fails,
    and keeps its playlists, on a channel document one of whose playlist
    entries lacks its name or its id. *)
Theorem from_dict_required_keys `{JsonCodec} :
  (forall d n i,
      dict_lookup "playListName" d = Some n ->
      dict_lookup "plID" d = Some i ->
      dict_lookup "videos" d = None ->
      Playlist.from_dict (VDict d) = Ok (mkPlaylist n i []))
  /\ (forall d,
      dict_lookup "playListName" d = None ->
      Playlist.from_dict (VDict d) = Raise (KeyError "playListName"))
  /\ (forall d n,
      dict_lookup "playListName" d = Some n ->
      dict_lookup "plID" d = None ->
      Playlist.from_dict (VDict d) = Raise (KeyError "plID"))
  /\ (forall fs filename text obj items d self,
      files fs !! filename = Some text ->
      loads (read_text text) = Ok (VDict obj) ->
      dict_lookup "playlists" obj = Some (VList items) ->
      In (VDict d) items ->
      dict_lookup "playListName" d = None \/ dict_lookup "plID" d = None ->
      exists e,
        outcome (Channel.load_json fs filename self) = Raise e
        /\ playlists (state_after (Channel.load_json fs filename self)) = playlists self).
Proof.
  repeat split.
  - intros d n i Hn Hi Hv. unfold Playlist.from_dict, getitem, get. now rewrite Hn, Hi, Hv.
  - intros d Hn. unfold Playlist.from_dict, getitem. now rewrite Hn.
  - intros d n Hn Hi. unfold Playlist.from_dict, getitem. now rewrite Hn, Hi.
  - intros fs filename text obj items d self Hf Hobj Hps Hin Hd.
    rewrite (load_json_parsed fs filename text obj self Hf Hobj).
    assert (exists e, Playlist.from_dict (VDict d) = Raise e) as [e He].
    { unfold Playlist.from_dict, getitem.
      destruct (dict_lookup "playListName" d) as [n|]; [|now eexists].
      destruct Hd as [Hd|Hd]; [discriminate|]. rewrite Hd. now eexists. }
    destruct (traverse_raises Playlist.from_dict items (VDict d) e Hin He) as [e' He'].
    unfold Channel.playlists_of, get. rewrite Hps. cbn [bind py_iter]. rewrite He'.
    exists e'. split; reflexivity.
Qed.

(** A channel document whose only playlist entry has no id. *)
Lemma from_dict_required_keys_witness :
  exists e,
    outcome (Channel.load_json (fs_with "channel.json" no_id_document) "channel.json"
               test_channel) = Raise e
    /\ playlists
         (state_after (Channel.load_json (fs_with "channel.json" no_id_document) "channel.json"
                         test_channel))
       = playlists test_channel.
Proof.
  apply (proj2 (proj2 (proj2 from_dict_required_keys))
           (fs_with "channel.json" no_id_document) "channel.json" no_id_document
           [("name", VStr "New"); ("playlists", VList [VDict [("playListName", VStr "Broken")]])]
           [VDict [("playListName", VStr "Broken")]]
           [("playListName", VStr "Broken")] test_channel);
    try reflexivity.
  - now left.
  - now right.
Defined.

Example load_json_entry_without_id :
  Channel.load_json
    (fs_with "channel.json"
       ("{" ++ RefJson.quote "playlists" ++ ": [{" ++ RefJson.quote "playListName" ++ ": "
            ++ RefJson.quote "Tutorials" ++ "}]}"))
    "channel.json" test_channel
  = (Raise (KeyError "plID"), test_channel).
Proof. reflexivity. Qed.

(** ** A load that fails *)

Lemma load_lines_cons `{JsonCodec} (line : string) (rest : list string) (pl : Playlist) :
  Playlist.load_lines (line :: rest) pl
  = if String.eqb (strip line) "" then Playlist.load_lines rest pl
    else
      match loads (strip line) with
      | Raise e => (Raise e, pl)
      | Ok data =>
          match video_of_record data with
          | Raise e => (Raise e, pl)
          | Ok v =>
              Playlist.load_lines rest
                (mkPlaylist (playListName pl) (plID pl) (videos pl ++ [v]))
          end
      end.
Proof.
  cbn [Playlist.load_lines]. destruct (String.eqb (strip line) ""); [reflexivity|].
  unfold abind, lift, Playlist.add_video, read, set_videos.
  destruct (loads (strip line)) as [data|e]; [|reflexivity].
  destruct (video_of_record data); reflexivity.
Qed.

Lemma load_lines_app `{JsonCodec} (l1 l2 : list string) : forall pl,
  Playlist.load_lines (l1 ++ l2) pl
  = match Playlist.load_lines l1 pl with
    | (Ok _, pl') => Playlist.load_lines l2 pl'
    | (Raise e, pl') => (Raise e, pl')
    end.
Proof.
  induction l1 as [|line l1 IH]; intros pl; [reflexivity|].
  rewrite <- app_comm_cons, !load_lines_cons.
  destruct (String.eqb (strip line) ""); [apply IH|].
  destruct (loads (strip line)) as [data|e]; [|reflexivity].
  destruct (video_of_record data) as [v|e]; [apply IH | reflexivity].
Qed.

Lemma load_lines_keeps_identity `{JsonCodec} (lines : list string) : forall pl,
  playListName (state_after (Playlist.load_lines lines pl)) = playListName pl
  /\ plID (state_after (Playlist.load_lines lines pl)) = plID pl.
Proof.
  induction lines as [|line lines IH]; intros pl; [now split|].
  rewrite load_lines_cons.
  destruct (String.eqb (strip line) ""); [apply IH|].
  destruct (loads (strip line)) as [data|e]; [|now split].
  destruct (video_of_record data) as [v|e]; [|now split].
  apply (IH (mkPlaylist (playListName pl) (plID pl) (videos pl ++ [v]))).
Qed.

Lemma load_json_cases `{JsonCodec} (fs : filesystem) (filename : string) (self : Channel) :
  Channel.load_json fs filename self
  = match files fs !! filename with
    | None =>
        (Raise (match undecodable fs !! filename with
                | Some _ => UnicodeDecodeError
                | None => FileNotFoundError
                end), self)
    | Some text =>
        match loads (read_text text) with
        | Raise e => (Raise e, self)
        | Ok doc =>
            match get doc "name" (name self) with
            | Raise e => (Raise e, self)
            | Ok n =>
                match Channel.playlists_of doc with
                | Ok pls => (Ok tt, mkChannel n pls)
                | Raise e => (Raise e, mkChannel n (playlists self))
                end
            end
        end
    end.
Proof.
  unfold Channel.load_json, abind, lift, read, open_read, set_name, set_playlists.
  destruct (files fs !! filename) as [text|];
    [|now destruct (undecodable fs !! filename)].
  destruct (loads (read_text text)) as [doc|e]; [|reflexivity].
  destruct (get doc "name" (name self)) as [n|e]; [|reflexivity].
  destruct (Channel.playlists_of doc); reflexivity.
Qed.

Lemma load_playlist_forgets `{JsonCodec} (fs : filesystem) (filename : string) (self : Playlist) :
  Playlist.load_playlist_from_file fs filename self
  = Playlist.load_playlist_from_file fs filename
      (Playlist.__init__ (playListName self) (plID self)).
Proof. reflexivity. Qed.

(** C2, as the code has it.  [Channel.load_json]: a failed load keeps the
    playlists; it keeps the whole channel when the file is missing, when
    its bytes are not UTF-8 text or when its text is not a JSON object;
    when the text is an object, the name is already the document's.
    [Playlist.load_playlist_from_file]: the video sequence is emptied
    before the file is opened, so the result never depends on the videos
    held before; a failed load keeps the name and the id, leaves no video
    when the file is missing, and leaves the videos of the lines before the
    one that fails otherwise, the lines that [strip] empties being skipped;
    when the bytes of the file are not UTF-8 text, it leaves the videos of
    the lines read before the decoder fails. *)
Theorem failed_load_state `{JsonCodec} (fs : filesystem) (filename : string) :
  (forall (self : Channel) e,
      outcome (Channel.load_json fs filename self) = Raise e ->
      playlists (state_after (Channel.load_json fs filename self)) = playlists self
      /\ ((forall text obj, files fs !! filename = Some text ->
                            loads (read_text text) <> Ok (VDict obj)) ->
          state_after (Channel.load_json fs filename self) = self)
      /\ (forall text obj, files fs !! filename = Some text ->
                           loads (read_text text) = Ok (VDict obj) ->
          name (state_after (Channel.load_json fs filename self))
          = match dict_lookup "name" obj with Some n => n | None => name self end))
  /\ (forall (self : Playlist),
      Playlist.load_playlist_from_file fs filename self
      = Playlist.load_playlist_from_file fs filename
          (Playlist.__init__ (playListName self) (plID self)))
  /\ (forall (self : Playlist) e,
      outcome (Playlist.load_playlist_from_file fs filename self) = Raise e ->
      playListName (state_after (Playlist.load_playlist_from_file fs filename self))
      = playListName self
      /\ plID (state_after (Playlist.load_playlist_from_file fs filename self)) = plID self
      /\ (files fs !! filename = None -> undecodable fs !! filename = None ->
          e = FileNotFoundError
          /\ videos (state_after (Playlist.load_playlist_from_file fs filename self)) = []))
  /\ (forall (self loaded : Playlist) text before bad after e,
      files fs !! filename = Some text ->
      file_lines text = (before ++ bad :: after)%list ->
      Playlist.load_lines before (Playlist.__init__ (playListName self) (plID self))
      = (Ok tt, loaded) ->
      outcome (Playlist.load_lines [bad] loaded) = Raise e ->
      Playlist.load_playlist_from_file fs filename self = (Raise e, loaded))
  /\ (forall lines,
      files fs !! filename = None ->
      undecodable fs !! filename = Some lines ->
      (forall self : Channel,
          Channel.load_json fs filename self = (Raise UnicodeDecodeError, self))
      /\ (forall self loaded : Playlist,
          Playlist.load_lines lines (Playlist.__init__ (playListName self) (plID self))
          = (Ok tt, loaded) ->
          Playlist.load_playlist_from_file fs filename self
          = (Raise UnicodeDecodeError, loaded))).
Proof.
  split; [|split; [|split; [|split]]].
  - intros self e. rewrite load_json_cases. unfold outcome, state_after.
    destruct (files fs !! filename) as [text|] eqn:Hf;
      [|intros _; split; [reflexivity|]; split; [reflexivity | discriminate]].
    destruct (loads (read_text text)) as [doc|e'] eqn:Hdoc;
      [|intros _; split; [reflexivity|]; split; [reflexivity | intros ? ? [= <-]; congruence]].
    destruct doc as [| b | z | s | items | obj];
      try (intros _; split; [reflexivity|]; split;
           [reflexivity | intros ? ? [= <-]; congruence]).
    unfold get.
    destruct (dict_lookup "name" obj) as [n|] eqn:Hn;
      (destruct (Channel.playlists_of (VDict obj)) as [pls|e'']; [discriminate|]);
      intros _; cbn [fst snd name playlists];
      (split; [reflexivity|]); (split; [intros Hno; now destruct (Hno text obj eq_refl)|]);
      intros ? ? [= <-]; rewrite Hdoc; intros [= <-]; now rewrite Hn.
  - intros self. apply load_playlist_forgets.
  - intros self e. rewrite load_playlist_cases.
    destruct (files fs !! filename) as [text|] eqn:Hf.
    + intros _.
      destruct (load_lines_keeps_identity (file_lines text)
                  (mkPlaylist (playListName self) (plID self) [])) as [Hn Hi].
      split; [exact Hn|]. split; [exact Hi | discriminate].
    + destruct (undecodable fs !! filename) as [lines|] eqn:Hu.
      * intros _.
        destruct (load_lines_keeps_identity lines
                    (mkPlaylist (playListName self) (plID self) [])) as [Hn Hi].
        unfold state_after in *.
        destruct (Playlist.load_lines lines (mkPlaylist (playListName self) (plID self) []))
          as [[[]|e'] pl]; (split; [exact Hn|]); (split; [exact Hi | discriminate]).
      * intros [= <-]. repeat split.
  - intros self loaded text before bad after e Hf Hlines Hbefore Hbad.
    rewrite load_playlist_cases, Hf, Hlines, load_lines_app.
    unfold Playlist.__init__ in Hbefore. rewrite Hbefore.
    change (bad :: after) with ([bad] ++ after)%list. rewrite load_lines_app.
    revert Hbad. unfold outcome. rewrite load_lines_cons.
    destruct (String.eqb (strip bad) ""); [discriminate|].
    destruct (loads (strip bad)) as [data|e']; [|now intros [= ->]].
    destruct (video_of_record data) as [v|e']; [discriminate | now intros [= ->]].
  - intros lines Hf Hu. split.
    + intros self. now rewrite load_json_cases, Hf, Hu.
    + intros self loaded Hlines. rewrite load_playlist_cases, Hf, Hu.
      unfold Playlist.__init__ in Hlines. now rewrite Hlines.
Qed.

(** C2 as stated fails: after a failed load from a missing file the
    playlist has lost its videos; after a failure on the second line it
    holds the video of the first line; after a failure on a playlist entry
    the channel has the name of the document. *)
Lemma failed_load_is_not_atomic :
  (Playlist.load_playlist_from_file empty_fs "missing.txt" tutorials
   = (Raise FileNotFoundError, mkPlaylist (VStr "Tutorials") (VInt 1) [])
   /\ state_after (Playlist.load_playlist_from_file empty_fs "missing.txt" tutorials)
      <> tutorials)
  /\ (Playlist.load_playlist_from_file (fs_with "half.txt" half_file) "half.txt" tutorials
      = (Raise JSONDecodeError,
         mkPlaylist (VStr "Tutorials") (VInt 1) [mkVideo (VStr "Kept") 5 1])
      /\ state_after
           (Playlist.load_playlist_from_file (fs_with "half.txt" half_file) "half.txt" tutorials)
         <> tutorials)
  /\ (Channel.load_json (fs_with "channel.json" no_id_document) "channel.json" test_channel
      = (Raise (KeyError "plID"), mkChannel (VStr "New") [tutorials])
      /\ state_after
           (Channel.load_json (fs_with "channel.json" no_id_document) "channel.json" test_channel)
         <> test_channel).
Proof. repeat split; discriminate. Qed.

Lemma failed_load_state_witness :
  playlists
    (state_after
       (Channel.load_json (fs_with "channel.json" no_id_document) "channel.json" test_channel))
  = playlists test_channel.
Proof.
  refine (proj1 (proj1 (failed_load_state (fs_with "channel.json" no_id_document) "channel.json")
                   test_channel (KeyError "plID") _)).
  reflexivity.
Defined.

(** * Further properties of the code *)

(** ** Playlists and their documents *)

(** X1: [add_video] puts the video last, and [remove_video] at the
    position the video got undoes it. *)
Theorem add_video_then_remove_last (pl : Playlist) (v : Video) :
  let added := state_after (Playlist.add_video v pl) in
  videos added = (videos pl ++ [v])%list
  /\ Playlist.remove_video (Z.of_nat (length (videos pl))) added = (Ok tt, pl).
Proof.
  cbv zeta. split; [reflexivity|].
  unfold Playlist.add_video, Playlist.remove_video, abind, read, lift, list_del, set_videos,
    ret, state_after.
  cbn [fst snd videos playListName plID]. rewrite length_app. cbn [length].
  assert ((0 <=? Z.of_nat (length (videos pl)))
          && (Z.of_nat (length (videos pl)) <? Z.of_nat (length (videos pl) + 1)) = true) as ->.
  { apply andb_true_iff. split; [apply Z.leb_le | apply Z.ltb_lt]; lia. }
  assert ((Z.of_nat (length (videos pl)) <? 0) = false) as -> by (apply Z.ltb_ge; lia).
  assert ((0 <=? Z.of_nat (length (videos pl)))
          && (Z.of_nat (length (videos pl)) <? Z.of_nat (length (videos pl) + 1)) = true) as ->.
  { apply andb_true_iff. split; [apply Z.leb_le | apply Z.ltb_lt]; lia. }
  rewrite Nat2Z.id, delete_middle, app_nil_r. now destruct pl.
Qed.

(** X2: [Playlist.from_dict] rebuilds every playlist from its [to_dict],
    whatever its fields hold; and from the JSON text of its [to_dict] when
    the fields are typed as annotated. *)
Theorem playlist_document_roundtrip `{JsonCodec} (p : Playlist) :
  Playlist.from_dict (Playlist.to_dict p) = Ok p
  /\ (typed_playlist p = true ->
      (let* d := loads (dumps (Playlist.to_dict p)) in Playlist.from_dict d) = Ok p).
Proof.
  split; [apply from_dict_to_dict|].
  intros Hp. rewrite (loads_dumps _ (wf_to_dict p Hp)). apply from_dict_to_dict.
Qed.

Lemma playlist_document_roundtrip_witness :
  (let* d := RefJson.loads (RefJson.dumps (Playlist.to_dict tutorials)) in Playlist.from_dict d)
  = Ok tutorials.
Proof.
  apply (proj2 (@playlist_document_roundtrip reference_str reference_codec tutorials)).
  reflexivity.
Defined.

(** X3: a record whose duration and views are the decimal text of two
    integers decodes to the video with these integers: [int] converts the
    text. *)
Theorem record_numbers_as_text `{PyStr} (t : value) (d w : Z) :
  video_of_record
    (VDict [("title", t); ("duration", VStr (str_of_int d)); ("views", VStr (str_of_int w))])
  = Ok (mkVideo t d w).
Proof.
  unfold video_of_record. cbn [getitem dict_lookup String.eqb Ascii.eqb Bool.eqb bind py_int].
  now rewrite !int_of_str_of_int.
Qed.

(** ** Lines of a playlist file *)

(** X4: a line of white space only, anywhere in a playlist file, does not
    change what [load_playlist_from_file] gives. *)
Theorem blank_lines_are_skipped `{JsonCodec} (fs fs' : filesystem) (filename text text' : string)
    (before after : list string) (blank : string) (self : Playlist) :
  files fs !! filename = Some text ->
  file_lines text = (before ++ blank :: after)%list ->
  strip blank = "" ->
  files fs' !! filename = Some text' ->
  file_lines text' = (before ++ after)%list ->
  Playlist.load_playlist_from_file fs filename self
  = Playlist.load_playlist_from_file fs' filename self.
Proof.
  intros Hf Hl Hb Hf' Hl'.
  rewrite !load_playlist_cases, Hf, Hf', Hl, Hl', !load_lines_app.
  destruct (Playlist.load_lines before (mkPlaylist (playListName self) (plID self) []))
    as [[[]|e] pl]; [|reflexivity].
  now rewrite load_lines_cons, Hb.
Qed.

Lemma blank_lines_are_skipped_witness :
  Playlist.load_playlist_from_file (fs_with "p.txt" two_lines_and_blank) "p.txt" playlist_a
  = Playlist.load_playlist_from_file (fs_with "p.txt" two_lines) "p.txt" playlist_a.
Proof.
  apply (blank_lines_are_skipped (fs_with "p.txt" two_lines_and_blank) (fs_with "p.txt" two_lines)
           "p.txt" two_lines_and_blank two_lines
           [RefJson.dumps (asdict (mkVideo (VStr "Intro") 125 10)) ++ String LF ""]
           [RefJson.dumps (asdict (mkVideo (VStr "Second part") 45 0)) ++ String LF ""]
           ("   " ++ String LF ""));
    reflexivity.
Defined.

(** X5: a file all of whose lines are white space, the empty file
    included, loads without error and leaves the playlist with no video. *)
Theorem blank_file_loads_empty `{JsonCodec} (fs : filesystem) (filename text : string)
    (self : Playlist) :
  files fs !! filename = Some text ->
  forallb (fun line => String.eqb (strip line) "") (file_lines text) = true ->
  Playlist.load_playlist_from_file fs filename self
  = (Ok tt, mkPlaylist (playListName self) (plID self) []).
Proof.
  intros Hf Hb. rewrite load_playlist_cases, Hf.
  generalize (mkPlaylist (playListName self) (plID self) []). intros pl.
  induction (file_lines text) as [|line lines IH]; [reflexivity|].
  cbn [forallb] in Hb. apply andb_true_iff in Hb as [Hline Hb].
  rewrite load_lines_cons, Hline. now apply IH.
Qed.

Lemma blank_file_loads_empty_witness :
  Playlist.load_playlist_from_file (fs_with "p.txt" (String LF ("  " ++ String LF ""))) "p.txt"
    tutorials
  = (Ok tt, mkPlaylist (VStr "Tutorials") (VInt 1) []).
Proof.
  apply (blank_file_loads_empty (fs_with "p.txt" (String LF ("  " ++ String LF ""))) "p.txt"
           (String LF ("  " ++ String LF "")) tutorials); reflexivity.
Defined.

(** ** More on the search *)

(** X7: the result of [Channel.search_playlist] depends on the query up to
    the case of its letters only. *)
Theorem search_ignores_query_case `{PyStr} (ch : Channel) (q q' : string) :
  equal_ignoring_case q q' = true ->
  Channel.search_playlist ch q = Channel.search_playlist ch q'.
Proof.
  intros Hq. unfold Channel.search_playlist. now rewrite (lower_letters q q' Hq).
Qed.

Lemma search_ignores_query_case_witness :
  Channel.search_playlist channel_ab "MuSiC" = Channel.search_playlist channel_ab "music".
Proof. apply (search_ignores_query_case channel_ab "MuSiC" "music"). reflexivity. Defined.

Lemma search_from_app `{PyStr} (n : string) (l1 l2 : list Playlist) :
  Channel.search_from n (l1 ++ l2)
  = match Channel.search_from n l1 with
    | Ok None => Channel.search_from n l2
    | r => r
    end.
Proof.
  induction l1 as [|p l1 IH]; [reflexivity|].
  cbn [app Channel.search_from].
  destruct (lower_method (playListName p)) as [m|e]; [|reflexivity].
  cbn [bind]. destruct (String.eqb m n); [reflexivity | exact IH].
Qed.

Lemma search_from_named `{PyStr} (q : string) (l : list Playlist) :
  forallb (fun p => is_str (playListName p)) l = true ->
  (exists pl, Channel.search_from (lower q) l = Ok (Some pl) /\ matches q pl /\ pl ∈ l)
  \/ (Channel.search_from (lower q) l = Ok None /\ Forall (fun p => ~ matches q p) l).
Proof.
  induction l as [|p l IH]; intros Hl.
  - right. split; [reflexivity | constructor].
  - cbn [forallb] in Hl. apply andb_true_iff in Hl as [Hp Hl].
    destruct (playListName p) as [| | |s| |] eqn:Hs; try discriminate.
    rewrite (search_from_step q p l s Hs).
    destruct (String.eqb_spec (lower s) (lower q)) as [E|E].
    + left. exists p. split; [reflexivity|]. split; [now exists s | now left].
    + destruct (IH Hl) as [(pl & Hfound & Hm & Hin) | [Hnone Hall]].
      { left. exists pl. split; [exact Hfound|]. split; [exact Hm | now right]. }
      right. split; [exact Hnone|]. constructor; [|exact Hall].
      intros (s' & Hs' & E'). congruence.
Qed.

(** X8: on a channel whose playlists have string names, a playlist that
    [add_playlist] has just added is found by its own name, unless an
    earlier playlist has that name up to case (it has the lower-case form
    of the name), which is then the one returned. *)
Theorem added_playlist_is_found `{PyStr} (ch : Channel) (p : Playlist) (s : string) :
  playListName p = VStr s ->
  forallb (fun p' => is_str (playListName p')) (playlists ch) = true ->
  exists pl,
    Channel.search_playlist (state_after (Channel.add_playlist p ch)) s = Ok (Some pl)
    /\ matches s pl
    /\ (Forall (fun p' => ~ matches s p') (playlists ch) -> pl = p).
Proof.
  intros Hs Hch. unfold Channel.search_playlist, Channel.add_playlist, abind, read,
    set_playlists, state_after.
  cbn [snd playlists]. rewrite search_from_app.
  destruct (search_from_named s (playlists ch) Hch) as [(pl & -> & Hm & Hin) | [-> Hall]].
  - exists pl. split; [reflexivity|]. split; [exact Hm|].
    intros Hno. exfalso. rewrite Forall_forall in Hno. exact (Hno pl Hin Hm).
  - exists p. rewrite (search_from_step s p [] s Hs), String.eqb_refl.
    split; [reflexivity|]. split; [now exists s | reflexivity].
Qed.

Lemma added_playlist_is_found_witness :
  exists pl,
    Channel.search_playlist (state_after (Channel.add_playlist tutorials channel_ab)) "Tutorials"
    = Ok (Some pl)
    /\ matches "Tutorials" pl
    /\ (Forall (fun p' => ~ matches "Tutorials" p') (playlists channel_ab) -> pl = tutorials).
Proof. apply (added_playlist_is_found channel_ab tutorials "Tutorials"); reflexivity. Defined.

(** X9: [Channel.search_playlist] raises nothing but [AttributeError], and
    raises it exactly when a playlist whose name is no string stands before
    every playlist that matches: a name that [load_json] took from a
    document can be such a value. *)
Theorem search_raises_on_unnamed `{PyStr} (ch : Channel) (q : string) :
  (forall e, Channel.search_playlist ch q = Raise e -> e = AttributeError)
  /\ (Channel.search_playlist ch q = Raise AttributeError <->
      exists before p after,
        playlists ch = (before ++ p :: after)%list
        /\ is_str (playListName p) = false
        /\ Forall (fun p' => is_str (playListName p') = true /\ ~ matches q p') before).
Proof.
  unfold Channel.search_playlist. generalize (playlists ch). clear ch. intros l.
  induction l as [|p l [IH1 IH2]].
  - split; [discriminate|]. split; [discriminate|].
    intros (before & p & after & E & _). now destruct before.
  - destruct (playListName p) as [| | |s| |] eqn:Hs;
      try (cbn [Channel.search_from]; rewrite Hs; cbn [lower_method bind];
           split; [now intros e [= <-]|]; split; [intros _ | reflexivity];
           exists [], p, l; repeat split; [now rewrite Hs | constructor]).
    rewrite (search_from_step q p l s Hs).
    destruct (String.eqb_spec (lower s) (lower q)) as [E|E].
    + split; [discriminate|]. split; [discriminate|].
      intros (before & p' & after & Heq & Hp' & Hbefore).
      destruct before as [|b before]; injection Heq as <- Heq.
      * rewrite Hs in Hp'. discriminate.
      * apply Forall_cons in Hbefore as [[_ Hb] _]. exfalso. apply Hb. now exists s.
    + split; [exact IH1|]. rewrite IH2. split.
      * intros (before & p' & after & -> & Hp' & Hbefore).
        exists (p :: before), p', after. repeat split; [exact Hp'|].
        constructor; [|exact Hbefore]. split; [now rewrite Hs|].
        intros (s' & Hs' & E'). congruence.
      * intros (before & p' & after & Heq & Hp' & Hbefore).
        destruct before as [|b before]; injection Heq as <- Heq.
        -- rewrite Hs in Hp'. discriminate.
        -- apply Forall_cons in Hbefore as [_ Hbefore]. now exists before, p', after.
Qed.

(** ** The commands of the window *)

Lemma map_fmap {A B : Type} (f : A -> B) (l : list A) : map f l = f <$> l.
Proof. induction l as [|x l IH]; [reflexivity|]. cbn. now rewrite IH. Qed.

Lemma norm_index_bounds (n : nat) (i : Z) :
  in_bounds n i = true -> (Z.to_nat (norm_index n i) < n)%nat.
Proof.
  unfold in_bounds. rewrite andb_true_iff, Z.leb_le, Z.ltb_lt. lia.
Qed.

(** A method that keeps the id of the playlist keeps the ids and the number
    of the playlists. *)
Lemma on_playlist_ids {A : Type} (idx : Z) (m : action Playlist A) (c : Channel) :
  (forall pl, plID (state_after (m pl)) = plID pl) ->
  map plID (playlists (state_after (Gui.on_playlist idx m c))) = map plID (playlists c)
  /\ length (playlists (state_after (Gui.on_playlist idx m c))) = length (playlists c).
Proof.
  intros Hid. unfold Gui.on_playlist, list_getitem, state_after.
  destruct (in_bounds (length (playlists c)) idx) eqn:Hb; [|now split].
  destruct (playlists c !! Z.to_nat (norm_index (length (playlists c)) idx)) as [pl|] eqn:Hpl;
    [|now split].
  specialize (Hid pl). unfold state_after in Hid.
  destruct (m pl) as [r pl']. cbn [snd playlists] in *.
  split; [|apply length_insert].
  rewrite !map_fmap, list_fmap_insert, Hid. apply list_insert_id.
  now rewrite list_lookup_fmap, Hpl.
Qed.

Lemma ids_of_playlists (a a' : App) :
  map plID (playlists (channel a')) = map plID (playlists (channel a)) ->
  next_playlist_id a' = next_playlist_id a ->
  ids_below a /\ ids_distinct a -> ids_below a' /\ ids_distinct a'.
Proof.
  unfold ids_below, ids_distinct. intros Hids Hnext [Hb Hd]. rewrite Hids, Hnext.
  split; [|exact Hd].
  apply (Forall_fmap plID (fun i => exists z, i = VInt z /\ z < next_playlist_id a)).
  apply (Forall_fmap plID (fun i => exists z, i = VInt z /\ z < next_playlist_id a)) in Hb.
  now rewrite <- !map_fmap, Hids in *.
Qed.

Lemma on_playlist_consistent {A : Type} (idx : Z) (m : action Playlist A) (w : Window) :
  (forall pl, plID (state_after (m pl)) = plID pl) ->
  consistent w ->
  consistent (state_after (Gui.on_app (Gui.on_channel (Gui.on_playlist idx m)) w)).
Proof.
  intros Hid (Hb & Hd & Hl).
  destruct (on_playlist_ids idx m (channel (app_of w)) Hid) as [Hids Hlen].
  unfold Gui.on_app, Gui.on_channel, state_after in *.
  destruct (Gui.on_playlist idx m (channel (app_of w))) as [r c']. cbn [snd] in *.
  unfold consistent, listed. cbn [app_of playlist_listbox channel].
  destruct (ids_of_playlists (app_of w) (mkApp c' (next_playlist_id (app_of w))) Hids eq_refl
              (conj Hb Hd)) as [Hb' Hd'].
  repeat split; [exact Hb' | exact Hd' |]. unfold listed in Hl. now rewrite Hlen.
Qed.

Lemma create_playlist_consistent `{PyStr} (entry : string) (w : Window) :
  consistent w -> consistent (state_after (Gui.create_playlist entry w)).
Proof.
  intros (Hb & Hd & _).
  unfold Gui.create_playlist, abind, read, ret, Gui.on_app, Gui.on_channel, Gui.set_next_id,
    Channel.add_playlist, abind, read, set_playlists, Gui.refresh_playlists, state_after,
    consistent, ids_below, ids_distinct, listed in *.
  cbn [fst snd app_of channel playlists next_playlist_id playlist_listbox name].
  repeat split.
  - apply Forall_app. split.
    + eapply Forall_impl; [exact Hb|]. intros p (z & Hz & Hlt). exists z. split; [exact Hz | lia].
    + repeat constructor. eexists. split; [reflexivity | lia].
  - rewrite map_app. apply NoDup_app. split; [exact Hd|]. split; [|repeat constructor; set_solver].
    intros i Hi Hin. apply list_elem_of_singleton in Hin. subst i.
    rewrite map_fmap in Hi. apply list_elem_of_fmap in Hi as (p & Hp & Hin).
    rewrite Forall_forall in Hb. destruct (Hb p Hin) as (z & Hz & Hlt).
    unfold Playlist.__init__ in Hp. cbn [plID] in Hp. rewrite Hz in Hp. injection Hp as Hp. lia.
  - unfold Channel.display_playlists. cbn [playlists]. now rewrite length_map.
Qed.

Lemma delete_playlist_consistent (sel : list Z) (w : Window) :
  consistent w -> consistent (state_after (Gui.delete_playlist sel w)).
Proof.
  intros (Hb & Hd & Hl). destruct sel as [|idx sel]; [now repeat split|].
  unfold Gui.delete_playlist, abind at 1, Gui.on_app, App.delete_playlist, abind at 1, read,
    abind at 1, lift, list_del.
  destruct ((0 <=? (if idx <? 0 then idx + Z.of_nat (length (playlists (channel (app_of w))))
                    else idx))
            && ((if idx <? 0 then idx + Z.of_nat (length (playlists (channel (app_of w))))
                 else idx) <? Z.of_nat (length (playlists (channel (app_of w)))))) eqn:E;
    [|now repeat split].
  unfold write, abind, Gui.refresh_playlists, ret, state_after, consistent, ids_below,
    ids_distinct, listed in *.
  cbn [fst snd app_of channel playlists next_playlist_id playlist_listbox name].
  repeat split.
  - now apply Forall_delete.
  - rewrite map_fmap, list_fmap_delete. rewrite map_fmap in Hd.
    exact (sublist_NoDup _ _ Hd (sublist_delete _ _)).
  - unfold Channel.display_playlists. cbn [playlists]. now rewrite length_map.
Qed.

Lemma rename_channel_consistent `{PyStr} (entry : string) (w : Window) :
  consistent w -> consistent (state_after (Gui.rename_channel entry w)).
Proof.
  intros Hw. unfold Gui.rename_channel. destruct (String.eqb (strip entry) ""); exact Hw.
Qed.

Lemma add_video_keeps_id (v : Video) (pl : Playlist) :
  plID (state_after (Playlist.add_video v pl)) = plID pl.
Proof. reflexivity. Qed.

Lemma remove_video_keeps_id (index : Z) (pl : Playlist) :
  plID (state_after (Playlist.remove_video index pl)) = plID pl.
Proof.
  unfold Playlist.remove_video, abind, read, lift, list_del, set_videos, ret, state_after.
  destruct ((0 <=? index) && (index <? Z.of_nat (length (videos pl)))); [|reflexivity].
  destruct ((0 <=? (if index <? 0 then index + Z.of_nat (length (videos pl)) else index))
            && ((if index <? 0 then index + Z.of_nat (length (videos pl)) else index)
                <? Z.of_nat (length (videos pl)))); reflexivity.
Qed.

Lemma load_playlist_keeps_id `{JsonCodec} (fs : filesystem) (filename : string) (pl : Playlist) :
  plID (state_after (Playlist.load_playlist_from_file fs filename pl)) = plID pl.
Proof.
  rewrite load_playlist_cases. destruct (files fs !! filename) as [text|].
  - apply (load_lines_keeps_identity (file_lines text)
             (mkPlaylist (playListName pl) (plID pl) [])).
  - destruct (undecodable fs !! filename) as [lines|]; [|reflexivity].
    pose proof (proj2 (load_lines_keeps_identity lines
                         (mkPlaylist (playListName pl) (plID pl) []))) as Hid.
    unfold state_after in *.
    now destruct (Playlist.load_lines lines (mkPlaylist (playListName pl) (plID pl) []))
      as [[[]|e] pl'].
Qed.

Lemma try_except_state {S : Type} (body : action S unit) (s : S) :
  state_after (Gui.try_except body s) = state_after (body s).
Proof. unfold Gui.try_except, state_after. now destruct (body s) as [[|] ?]. Qed.

Lemma run_consistent `{JsonCodec} (c : command) (w : Window) :
  consistent w -> consistent (state_after (run c w)).
Proof.
  intros Hw. destruct c as [entry | sel | entry | sel t d v | psel vsel | fs sel filename];
    cbn [run].
  - now apply create_playlist_consistent.
  - now apply delete_playlist_consistent.
  - now apply rename_channel_consistent.
  - unfold Gui.add_video_to_selected. destruct sel as [|idx sel]; [exact Hw|].
    destruct (Gui.entered_video t d v) as [video|e]; [|exact Hw].
    pose proof (on_playlist_consistent idx (Playlist.add_video video) w
                  (add_video_keeps_id video) Hw) as Hc.
    unfold abind, ret, state_after in *.
    now destruct (Gui.on_app (Gui.on_channel (Gui.on_playlist idx (Playlist.add_video video))) w)
      as [[|] ?].
  - unfold Gui.remove_video. destruct psel as [|pidx psel]; [exact Hw|].
    destruct vsel as [|vidx vsel]; [exact Hw|].
    pose proof (on_playlist_consistent pidx (Playlist.remove_video vidx) w
                  (remove_video_keeps_id vidx) Hw) as Hc.
    unfold abind, ret, state_after in *.
    now destruct (Gui.on_app (Gui.on_channel (Gui.on_playlist pidx (Playlist.remove_video vidx))) w)
      as [[|] ?].
  - unfold Gui.load_playlist_to_selected. destruct sel as [|idx sel]; [exact Hw|].
    unfold abind at 1, read. unfold abind at 1, lift.
    destruct (list_getitem (playlists (channel (app_of w))) idx); [|exact Hw].
    destruct (String.eqb filename ""); [exact Hw|].
    rewrite try_except_state.
    apply on_playlist_consistent; [|exact Hw]. intros pl. apply load_playlist_keeps_id.
Qed.

(** X10: in every window reached from the start by creating and deleting
    playlists, renaming the channel, adding and removing videos and loading
    playlist files, in any order and whatever the list boxes, the entries
    and the files hold, the playlist ids are integers below the next id, no
    two playlists share an id, and the list box has one line for each
    playlist. *)
Theorem commands_keep_window_consistent `{JsonCodec} (cs : list command) :
  consistent (run_all cs Gui.start).
Proof.
  unfold run_all.
  assert (consistent Gui.start) as Hstart.
  { repeat split; constructor. }
  revert Hstart. generalize Gui.start. induction cs as [|c cs IH]; intros w Hw; [exact Hw|].
  cbn [fold_left]. apply IH. now apply run_consistent.
Qed.

Example three_playlists_reached :
  run_all [CreatePlaylist "x"; CreatePlaylist "y"; CreatePlaylist "z"] Gui.start
  = three_playlists.
Proof. reflexivity. Qed.

Example two_then_one_reached :
  run_all [CreatePlaylist "Tutorials"; CreatePlaylist "Music"; DeletePlaylist [1]] Gui.start
  = two_then_one.
Proof. reflexivity. Qed.

(** ** Loading a channel into the window *)

Lemma load_channel_cases `{JsonCodec} (fs : filesystem) (filename : string) (w : Window) :
  String.eqb filename "" = false ->
  Gui.load_channel fs filename w
  = let keep c := mkWindow (mkApp c (next_playlist_id (app_of w))) (playlist_listbox w) in
    match Channel.load_json fs filename (channel (app_of w)) with
    | (Raise e, c) => (Ok (ShowError e), keep c)
    | (Ok _, c) =>
        match next_id_of (map plID (playlists c)) with
        | Raise e => (Ok (ShowError e), keep c)
        | Ok n => (Ok Returned, mkWindow (mkApp c n) (Channel.display_playlists c))
        end
    end.
Proof.
  intros Hf. unfold Gui.load_channel. rewrite Hf.
  unfold Gui.try_except, abind, read, lift, Gui.on_app, Gui.on_channel, Gui.set_next_id,
    Gui.refresh_playlists.
  destruct (Channel.load_json fs filename (channel (app_of w))) as [[[]|e] c];
    cbn [app_of channel]; [|reflexivity].
  destruct (next_id_of (map plID (playlists c))); reflexivity.
Qed.







(** X12: [load_channel] never raises; when it shows an error, the id of
    the next playlist and the list box are as before, while the channel is
    in the state [load_json] left it in. *)
Theorem load_channel_error `{JsonCodec} (fs : filesystem) (filename : string) (w : Window) :
  exists r,
    outcome (Gui.load_channel fs filename w) = Ok r
    /\ forall e, r = ShowError e ->
         next_playlist_id (app_of (state_after (Gui.load_channel fs filename w)))
         = next_playlist_id (app_of w)
         /\ playlist_listbox (state_after (Gui.load_channel fs filename w)) = playlist_listbox w
         /\ channel (app_of (state_after (Gui.load_channel fs filename w)))
            = state_after (Channel.load_json fs filename (channel (app_of w))).
Proof.
  destruct (String.eqb filename "") eqn:Hf.
  - unfold Gui.load_channel. rewrite Hf. exists Returned. split; [reflexivity | discriminate].
  - rewrite (load_channel_cases fs filename w Hf). cbv zeta. unfold outcome, state_after.
    destruct (Channel.load_json fs filename (channel (app_of w))) as [[[]|e] c].
    + destruct (next_id_of (map plID (playlists c))) as [n|e];
        eexists; (split; [reflexivity|]); [discriminate | now intros].
    + eexists. split; [reflexivity | now intros].
Qed.

(** X13: when the document decodes but the id of a playlist is no number,
    [load_channel] shows [TypeError] after the channel has been replaced:
    the window holds the loaded channel with the next id and the list box
    of before, so the list box no longer shows the playlists. *)
Theorem load_channel_stale_list_box `{JsonCodec} (fs : filesystem) (filename : string)
    (w : Window) (loaded : Channel) :
  String.eqb filename "" = false ->
  Channel.load_json fs filename (channel (app_of w)) = (Ok tt, loaded) ->
  as_numbers (map plID (playlists loaded)) = None ->
  Gui.load_channel fs filename w
  = (Ok (ShowError TypeError),
     mkWindow (mkApp loaded (next_playlist_id (app_of w))) (playlist_listbox w)).
Proof.
  intros Hf Hload Hids. rewrite (load_channel_cases fs filename w Hf), Hload. cbv zeta.
  unfold next_id_of. now rewrite Hids.
Qed.

(** From a window with three playlists: one playlist is left, three lines
    are shown, and the third line cannot be deleted. *)
Lemma load_channel_stale_list_box_witness :
  Gui.load_channel (fs_with "channel.json" text_id_document) "channel.json" three_playlists
  = (Ok (ShowError TypeError),
     mkWindow (mkApp (mkChannel (VStr "Elsayed Channel") [mkPlaylist (VStr "a") (VStr "one") []]) 4)
       (playlist_listbox three_playlists))
  /\ length (playlist_listbox three_playlists) = 3%nat
  /\ outcome (Gui.delete_playlist [2]
                (mkWindow
                   (mkApp (mkChannel (VStr "Elsayed Channel")
                             [mkPlaylist (VStr "a") (VStr "one") []]) 4)
                   (playlist_listbox three_playlists)))
     = Raise IndexError.
Proof.
  split; [|split; reflexivity].
  apply (load_channel_stale_list_box (fs_with "channel.json" text_id_document) "channel.json"
           three_playlists
           (mkChannel (VStr "Elsayed Channel") [mkPlaylist (VStr "a") (VStr "one") []]));
    vm_compute; reflexivity.
Defined.

(** ** Saving the channel of a window and loading it again *)

Lemma typed_ids_numbers (pls : list Playlist) :
  forallb typed_playlist pls = true ->
  exists zs, as_numbers (map plID pls) = Some zs /\ map VInt zs = map plID pls.
Proof.
  induction pls as [|p pls IH]; cbn [forallb]; intros Hty; [now exists []|].
  apply andb_true_iff in Hty as [Hp Hpls]. destruct (IH Hpls) as (zs & Hzs & Hmap).
  unfold typed_playlist in Hp. apply andb_true_iff in Hp as [Hp _].
  apply andb_true_iff in Hp as [_ Hp].
  destruct (plID p) as [| | z | | |] eqn:Hid; try discriminate.
  exists (z :: zs). cbn [map as_numbers]. rewrite Hid, Hzs. cbn [as_number map].
  now rewrite Hmap.
Qed.

Lemma fold_max_le (zs : list Z) (m : Z) :
  forall z, z <= m -> Forall (fun y => y <= m) zs -> fold_left Z.max zs z <= m.
Proof.
  induction zs as [|y zs IH]; intros z Hz Hzs; cbn [fold_left]; [exact Hz|].
  apply Forall_cons in Hzs as [Hy Hzs]. apply IH; [lia | exact Hzs].
Qed.

(** X14: the channel of a window whose names and titles are strings and
    whose ids are integers below the next id, saved to a writable path and
    loaded from it into any window, is that channel, with the list box
    showing its playlists; the id of the next playlist is the greatest id
    plus one (1 with no playlist), which is at most the one of the saved
    window: the ids of deleted playlists are given again. *)
Theorem save_then_load_channel `{JsonCodec} (fs : filesystem) (filename : string)
    (w other : Window) :
  String.eqb filename "" = false ->
  writable fs filename = true ->
  typed_channel (channel (app_of w)) = true ->
  ids_below (app_of w) ->
  exists fs' n,
    Gui.save_channel w filename fs = (Ok Returned, fs')
    /\ Gui.load_channel fs' filename other
       = (Ok Returned,
          mkWindow (mkApp (channel (app_of w)) n)
            (Channel.display_playlists (channel (app_of w))))
    /\ next_id_of (map plID (playlists (channel (app_of w)))) = Ok n
    /\ n <= Z.max 1 (next_playlist_id (app_of w)).
Proof.
  intros Hf Hw Hty Hb.
  assert (exists fs', Channel.to_json (channel (app_of w)) filename fs = (Ok tt, fs')
                      /\ Channel.load_json fs' filename (channel (app_of other))
                         = (Ok tt, channel (app_of w))) as (fs' & Hsave & Hload).
  { unfold Channel.to_json, write_file. rewrite Hw. eexists. split; [reflexivity|].
    unfold Channel.load_json, abind at 1, lift at 1, open_read.
    cbn [files]. rewrite lookup_insert_eq.
    unfold read_text. rewrite universal_newlines_id by apply dump_indent_no_cr.
    unfold abind at 1, lift at 1.
    rewrite (loads_dump_indent _ (wf_document (channel (app_of w)) Hty)).
    unfold Channel.playlists_of, Channel.document. cbn.
    rewrite traverse_from_dict. cbn. now destruct (channel (app_of w)). }
  pose proof Hty as Hty'. unfold typed_channel in Hty'.
  apply andb_true_iff in Hty' as [_ Hpls].
  destruct (typed_ids_numbers _ Hpls) as (zs & Hzs & Hmap).
  assert (Forall (fun y => y < next_playlist_id (app_of w)) zs) as Hlt.
  { apply Forall_forall. intros z Hz.
    assert (VInt z ∈ map plID (playlists (channel (app_of w)))) as Hin.
    { rewrite <- Hmap, map_fmap. now apply list_elem_of_fmap_2. }
    rewrite map_fmap in Hin. apply list_elem_of_fmap in Hin as (p & Hp & Hin).
    unfold ids_below in Hb. rewrite Forall_forall in Hb.
    destruct (Hb p Hin) as (z' & Hz' & Hlt). rewrite Hz' in Hp. now injection Hp as ->. }
  assert (exists n, next_id_of (map plID (playlists (channel (app_of w)))) = Ok n
                    /\ n <= Z.max 1 (next_playlist_id (app_of w))) as (n & Hn & Hle).
  { unfold next_id_of. rewrite Hzs. destruct zs as [|z zs]; [exists 1; split; [reflexivity|lia]|].
    eexists. split; [reflexivity|].
    apply Forall_cons in Hlt as [Hz Hlt].
    assert (fold_left Z.max zs z <= next_playlist_id (app_of w) - 1); [|lia].
    apply fold_max_le; [lia|]. apply (Forall_impl _ _ _ Hlt). intros y. lia. }
  exists fs', n. repeat split; [| |exact Hn|exact Hle].
  - unfold Gui.save_channel. rewrite Hf. unfold Gui.try_except. now rewrite Hsave.
  - rewrite (load_channel_cases fs' filename other Hf), Hload. cbv zeta. now rewrite Hn.
Qed.

(** Two playlists created, the second deleted: the next id is 3 before the
    channel is saved and 2 after it is loaded. *)
Lemma save_then_load_channel_witness :
  next_playlist_id (app_of two_then_one) = 3
  /\ exists fs' n,
       Gui.save_channel two_then_one "channel.json" empty_fs = (Ok Returned, fs')
       /\ Gui.load_channel fs' "channel.json" Gui.start
          = (Ok Returned,
             mkWindow (mkApp (channel (app_of two_then_one)) n)
               (Channel.display_playlists (channel (app_of two_then_one))))
       /\ next_id_of (map plID (playlists (channel (app_of two_then_one)))) = Ok n
       /\ n <= Z.max 1 (next_playlist_id (app_of two_then_one)).
Proof.
  split; [reflexivity|].
  apply (save_then_load_channel empty_fs "channel.json" two_then_one Gui.start);
    [reflexivity | reflexivity | reflexivity |].
  repeat constructor. exists 1. split; [reflexivity | vm_compute; reflexivity].
Defined.

(** ** Adding a video from the entries *)

(** X15: with a playlist selected, [add_video_to_selected] shows the error
    [ValueError] and leaves the window as it is when the title is blank or
    one of the two numbers is no integer literal, whatever the selection. *)
Theorem add_video_invalid_input `{PyStr} (idx : Z) (sel : list Z) (t d v : string) (w : Window) :
  strip t = "" \/ int_of_str d = None \/ int_of_str v = None ->
  Gui.add_video_to_selected (idx :: sel) t d v w = (Ok (ShowError ValueError), w).
Proof.
  intros Hbad. unfold Gui.add_video_to_selected, Gui.entered_video, py_int.
  destruct (int_of_str d) as [dz|]; cbn [bind]; [|reflexivity].
  destruct (int_of_str v) as [vz|]; cbn [bind]; [|reflexivity].
  destruct Hbad as [Ht | [Hd | Hv]]; [|discriminate..].
  now rewrite Ht.
Qed.

Lemma add_video_invalid_input_witness :
  Gui.add_video_to_selected [0] "Intro" "2:05" "10" three_playlists
  = (Ok (ShowError ValueError), three_playlists).
Proof.
  apply (add_video_invalid_input 0 [] "Intro" "2:05" "10" three_playlists).
  right. left. reflexivity.
Defined.

(** X16: with the line [idx] of a playlist selected, a title that is not
    blank and the decimal texts of two integers in the entries, negative
    ones too, [add_video_to_selected] puts the video with the stripped
    title and these two integers at the end of that playlist; the other
    playlists, the next id and the list box stay as they are. *)
Theorem add_video_appends `{PyStr} (idx : nat) (pl : Playlist) (t : string) (dz vz : Z) (w : Window) :
  playlists (channel (app_of w)) !! idx = Some pl ->
  strip t <> "" ->
  Gui.add_video_to_selected [Z.of_nat idx] t (str_of_int dz) (str_of_int vz) w
  = (Ok Returned,
     mkWindow
       (mkApp
          (mkChannel (name (channel (app_of w)))
             (<[idx := mkPlaylist (playListName pl) (plID pl)
                         (videos pl ++ [mkVideo (VStr (strip t)) dz vz])]>
                (playlists (channel (app_of w)))))
          (next_playlist_id (app_of w)))
       (playlist_listbox w)).
Proof.
  intros Hpl Ht. unfold Gui.add_video_to_selected, Gui.entered_video, py_int.
  rewrite !int_of_str_of_int. cbn [bind].
  apply String.eqb_neq in Ht. rewrite Ht.
  pose proof (lookup_lt_Some _ _ _ Hpl) as Hlt.
  unfold abind, ret, Gui.on_app, Gui.on_channel, Gui.on_playlist, list_getitem, in_bounds,
    norm_index.
  destruct (Z.of_nat idx <? 0) eqn:Hneg; [apply Z.ltb_lt in Hneg; lia|].
  assert ((0 <=? Z.of_nat idx) && (Z.of_nat idx <? Z.of_nat (length (playlists (channel (app_of w)))))
          = true) as ->.
  { apply andb_true_iff. rewrite Z.leb_le, Z.ltb_lt. lia. }
  rewrite Nat2Z.id, Hpl. reflexivity.
Qed.

Lemma add_video_appends_witness :
  Gui.add_video_to_selected [1] "  Intro " "-125" "10" three_playlists
  = (Ok Returned,
     mkWindow
       (mkApp
          (mkChannel (VStr "Elsayed Channel")
             [mkPlaylist (VStr "x") (VInt 1) [];
              mkPlaylist (VStr "y") (VInt 2) [mkVideo (VStr "Intro") (-125) 10];
              mkPlaylist (VStr "z") (VInt 3) []])
          4)
       (playlist_listbox three_playlists)).
Proof.
  assert (strip "  Intro " <> "") as Ht by (vm_compute; discriminate).
  exact (add_video_appends 1 (mkPlaylist (VStr "y") (VInt 2) []) "  Intro " (-125) 10
           three_playlists eq_refl Ht).
Defined.

(** ** Deleting the selected line *)

Lemma run_all_consistent `{JsonCodec} (cs : list command) :
  forall w, consistent w -> consistent (run_all cs w).
Proof.
  unfold run_all. induction cs as [|c cs IH]; intros w Hw; [exact Hw|].
  cbn [fold_left]. apply IH. now apply run_consistent.
Qed.

Lemma start_consistent : consistent Gui.start.
Proof. repeat split; constructor. Qed.

(** X17: in every window reached from the start by the commands of
    [command], deleting with a line of the list box selected returns: the
    playlist at that line is removed and the list box shows the others. *)
Theorem selected_line_is_deleted `{JsonCodec} (cs : list command) (i : nat) (sel : list Z) :
  (i < length (playlist_listbox (run_all cs Gui.start)))%nat ->
  Gui.delete_playlist (Z.of_nat i :: sel) (run_all cs Gui.start)
  = (Ok Returned,
     mkWindow
       (mkApp
          (mkChannel (name (channel (app_of (run_all cs Gui.start))))
             (delete i (playlists (channel (app_of (run_all cs Gui.start))))))
          (next_playlist_id (app_of (run_all cs Gui.start))))
       (map Playlist.__str__ (delete i (playlists (channel (app_of (run_all cs Gui.start))))))).
Proof.
  intros Hi. destruct (run_all_consistent cs Gui.start start_consistent) as (_ & _ & Hl).
  unfold listed in Hl. rewrite Hl in Hi.
  generalize dependent (run_all cs Gui.start). intros w Hi.
  unfold Gui.delete_playlist, abind at 1, Gui.on_app, App.delete_playlist, abind at 1, read,
    abind at 1, lift, list_del.
  destruct (Z.of_nat i <? 0) eqn:Hneg; [apply Z.ltb_lt in Hneg; lia|].
  assert ((0 <=? Z.of_nat i) && (Z.of_nat i <? Z.of_nat (length (playlists (channel (app_of w)))))
          = true) as ->.
  { apply andb_true_iff. rewrite Z.leb_le, Z.ltb_lt. lia. }
  rewrite Nat2Z.id. reflexivity.
Qed.

Lemma selected_line_is_deleted_witness :
  Gui.delete_playlist [1]
    (run_all [CreatePlaylist "x"; CreatePlaylist "y"; CreatePlaylist "z"] Gui.start)
  = (Ok Returned,
     mkWindow
       (mkApp
          (mkChannel (VStr "Elsayed Channel")
             [mkPlaylist (VStr "x") (VInt 1) []; mkPlaylist (VStr "z") (VInt 3) []])
          4)
       ["x (ID: 1) — 0 videos"; "z (ID: 3) — 0 videos"]).
Proof.
  assert (1 < length (playlist_listbox
                        (run_all [CreatePlaylist "x"; CreatePlaylist "y"; CreatePlaylist "z"]
                           Gui.start)))%nat as Hi by (vm_compute; lia).
  exact (selected_line_is_deleted
           [CreatePlaylist "x"; CreatePlaylist "y"; CreatePlaylist "z"] 1 [] Hi).
Defined.

(** ** The icon *)

Lemma insert_tabulate {A : Type} (g : nat -> A) (c : A) (n x : nat) :
  (x < n)%nat ->
  <[x := c]> (map g (seq 0 n)) = map (fun i => if (i =? x)%nat then c else g i) (seq 0 n).
Proof.
  intros Hx. apply list_eq. intros i. rewrite !map_fmap.
  destruct (decide (x = i)) as [<-|Hne].
  - rewrite list_lookup_insert_eq by now rewrite length_fmap, length_seq.
    rewrite list_lookup_fmap, lookup_seq_lt by exact Hx. cbn. now rewrite Nat.eqb_refl.
  - rewrite list_lookup_insert_ne by exact Hne. rewrite !list_lookup_fmap.
    destruct (lt_dec i n) as [Hi|Hi].
    + rewrite lookup_seq_lt by exact Hi. cbn.
      destruct (Nat.eqb_spec i x); [congruence | reflexivity].
    + now rewrite lookup_seq_ge by lia.
Qed.

Lemma tabulate_ext {A : Type} (g h : nat -> A) (n : nat) :
  (forall i, (i < n)%nat -> g i = h i) -> map g (seq 0 n) = map h (seq 0 n).
Proof.
  intros Hgh. apply map_ext_in. intros i Hi. apply in_seq in Hi. apply Hgh. lia.
Qed.

Lemma grid_ext (n : nat) (f g : nat -> nat -> string) :
  (forall y x, (y < n)%nat -> (x < n)%nat -> f y x = g y x) -> grid n f = grid n g.
Proof.
  intros Hfg. unfold grid. apply tabulate_ext. intros y Hy.
  apply tabulate_ext. intros x Hx. now apply Hfg.
Qed.

Lemma grid_row (n : nat) (f : nat -> nat -> string) (y : nat) :
  (y < n)%nat -> grid n f !! y = Some (map (f y) (seq 0 n)).
Proof.
  intros Hy. unfold grid. rewrite (map_fmap (fun y => map (f y) (seq 0 n))).
  now rewrite list_lookup_fmap, lookup_seq_lt by exact Hy.
Qed.

Lemma grid_length (n : nat) (f : nat -> nat -> string) : length (grid n f) = n.
Proof. unfold grid. now rewrite length_map, length_seq. Qed.

Lemma getitem_nat {A : Type} (l : list A) (i : nat) (x : A) :
  l !! i = Some x -> list_getitem l (Z.of_nat i) = Ok x.
Proof.
  intros Hx. pose proof (lookup_lt_Some _ _ _ Hx) as Hlt.
  unfold list_getitem, in_bounds, norm_index.
  destruct (Z.ltb_spec (Z.of_nat i) 0); [lia|].
  destruct (Z.leb_spec 0 (Z.of_nat i)); [|lia].
  destruct (Z.ltb_spec (Z.of_nat i) (Z.of_nat (length l))); [|lia].
  cbn [andb]. now rewrite Nat2Z.id, Hx.
Qed.

Lemma setitem_nat {A : Type} (l : list A) (i : nat) (x : A) :
  (i < length l)%nat -> list_setitem l (Z.of_nat i) x = Ok (<[i := x]> l).
Proof.
  intros Hlt. unfold list_setitem, in_bounds, norm_index.
  destruct (Z.ltb_spec (Z.of_nat i) 0); [lia|].
  destruct (Z.leb_spec 0 (Z.of_nat i)); [|lia].
  destruct (Z.ltb_spec (Z.of_nat i) (Z.of_nat (length l))); [|lia].
  cbn [andb]. now rewrite Nat2Z.id.
Qed.

(** One assignment [pixels[y][x] = color] inside the square. *)
Lemma set_pixel_grid (n : nat) (f : nat -> nat -> string) (y x : nat) (color : string) :
  (y < n)%nat -> (x < n)%nat ->
  set_pixel (Z.of_nat y) (Z.of_nat x) color (grid n f)
  = (Ok tt, grid n (fun y' x' => if (y' =? y)%nat && (x' =? x)%nat then color else f y' x')).
Proof.
  intros Hy Hx. unfold set_pixel, abind at 1, read. unfold abind at 1, lift at 1.
  rewrite (getitem_nat _ _ _ (grid_row n f y Hy)).
  unfold abind at 1, lift at 1.
  rewrite setitem_nat by now rewrite length_map, length_seq.
  unfold abind at 1, lift at 1.
  rewrite setitem_nat by now rewrite grid_length.
  unfold write. f_equal. rewrite insert_tabulate by exact Hx.
  unfold grid. rewrite insert_tabulate by exact Hy.
  apply tabulate_ext. intros i Hi. destruct (Nat.eqb_spec i y) as [->|Hne].
  - apply tabulate_ext. intros j Hj. reflexivity.
  - reflexivity.
Qed.

Lemma py_range_empty (lo hi : Z) : hi <= lo -> py_range lo hi = [].
Proof. intros Hle. unfold py_range. now replace (Z.to_nat (hi - lo)) with 0%nat by lia. Qed.

Lemma py_range_step (lo hi : Z) : lo < hi -> py_range lo hi = lo :: py_range (lo + 1) hi.
Proof.
  intros Hlt. unfold py_range.
  replace (Z.to_nat (hi - lo)) with (S (Z.to_nat (hi - (lo + 1)))) by lia.
  cbn [seq map]. f_equal; [lia|].
  rewrite <- seq_shift, map_map. apply map_ext. intros k. lia.
Qed.

(** The inner loop: the columns of [range(lo, hi)] in row [y]. *)
Lemma fill_row (n : nat) (y : nat) (color : string) (hi : Z) (k : nat) :
  forall (lo : Z) (f : nat -> nat -> string),
    k = Z.to_nat (hi - lo) -> 0 <= lo -> hi <= Z.of_nat n -> (y < n)%nat ->
    for_each (py_range lo hi) (fun x => set_pixel (Z.of_nat y) x color) (grid n f)
    = (Ok tt, grid n (painted f (Z.of_nat y) (Z.of_nat y + 1) lo hi color)).
Proof.
  induction k as [|k IH]; intros lo f Hk Hlo Hhi Hy.
  - rewrite py_range_empty by lia. cbn [for_each]. unfold ret. f_equal.
    apply grid_ext. intros y' x' _ _. unfold painted.
    destruct (Z.leb_spec lo (Z.of_nat x')); destruct (Z.ltb_spec (Z.of_nat x') hi);
      rewrite ?andb_false_r; try reflexivity; lia.
  - rewrite py_range_step by lia. cbn [for_each]. unfold abind at 1.
    replace lo with (Z.of_nat (Z.to_nat lo)) at 1 by lia.
    rewrite set_pixel_grid by lia.
    rewrite IH by lia. f_equal. apply grid_ext. intros y' x' _ _. unfold painted.
    destruct (Nat.eqb_spec y' y); destruct (Nat.eqb_spec x' (Z.to_nat lo));
      destruct (Z.leb_spec (Z.of_nat y) (Z.of_nat y'));
      destruct (Z.ltb_spec (Z.of_nat y') (Z.of_nat y + 1));
      destruct (Z.leb_spec lo (Z.of_nat x')); destruct (Z.leb_spec (lo + 1) (Z.of_nat x'));
      destruct (Z.ltb_spec (Z.of_nat x') hi); cbn [andb]; try reflexivity; lia.
Qed.

(** The outer loop: the rows of [range(a, hi)], each with the columns of
    [range(lo, hi)]. *)
Lemma fill_rows (n : nat) (color : string) (lo hi : Z) (k : nat) :
  forall (a : Z) (f : nat -> nat -> string),
    k = Z.to_nat (hi - a) -> 0 <= a -> 0 <= lo -> hi <= Z.of_nat n ->
    for_each (py_range a hi)
      (fun y => for_each (py_range lo hi) (fun x => set_pixel y x color)) (grid n f)
    = (Ok tt, grid n (painted f a hi lo hi color)).
Proof.
  induction k as [|k IH]; intros a f Hk Ha Hlo Hhi.
  - rewrite py_range_empty by lia. cbn [for_each]. unfold ret. f_equal.
    apply grid_ext. intros y' x' _ _. unfold painted.
    destruct (Z.leb_spec a (Z.of_nat y')); destruct (Z.ltb_spec (Z.of_nat y') hi);
      cbn [andb]; try reflexivity; lia.
  - rewrite py_range_step by lia. cbn [for_each]. unfold abind at 1.
    pose proof (fill_row n (Z.to_nat a) color hi (Z.to_nat (hi - lo)) lo f) as Hrow.
    rewrite Z2Nat.id in Hrow by exact Ha. rewrite Hrow by lia.
    rewrite IH by lia. f_equal. apply grid_ext. intros y' x' _ _. unfold painted.
    destruct (Z.leb_spec a (Z.of_nat y')); destruct (Z.leb_spec (a + 1) (Z.of_nat y'));
      destruct (Z.ltb_spec (Z.of_nat y') (a + 1)); destruct (Z.ltb_spec (Z.of_nat y') hi);
      destruct (Z.leb_spec lo (Z.of_nat x')); destruct (Z.ltb_spec (Z.of_nat x') hi);
      cbn [andb]; try reflexivity; lia.
Qed.

Lemma fill_square_grid (n : nat) (color : string) (lo hi : Z) (f : nat -> nat -> string) :
  0 <= lo -> hi <= Z.of_nat n ->
  fill_square lo hi color (grid n f) = (Ok tt, grid n (painted f lo hi lo hi color)).
Proof.
  intros Hlo Hhi. unfold fill_square.
  now apply (fill_rows n color lo hi (Z.to_nat (hi - lo))).
Qed.

Lemma replicate_grid (n : nat) (bg : string) :
  replicate n (replicate n bg) = grid n (fun _ _ => bg).
Proof.
  assert (forall (A : Type) (x : A) m s, replicate m x = map (fun _ => x) (seq s m)) as Hrep.
  { intros A x m. induction m as [|m IH]; intros s; [reflexivity|].
    cbn [replicate seq map]. now rewrite (IH (S s)). }
  unfold grid. rewrite <- (Hrep _ bg n 0%nat). apply Hrep.
Qed.

Lemma icon_pixels_grid (size : nat) (fg bg : string) (inner : bool) :
  icon_pixels size fg bg inner = Ok (grid size (icon_color size fg bg inner)).
Proof.
  unfold icon_pixels. cbv zeta. rewrite replicate_grid. destruct inner.
  - rewrite fill_square_grid by lia. f_equal. apply grid_ext. intros y x _ _.
    unfold painted, icon_color. cbv zeta.
    now rewrite andb_assoc.
  - rewrite fill_square_grid by lia. f_equal. apply grid_ext. intros y x Hy Hx.
    unfold painted, icon_color.
    destruct (Z.leb_spec 0 (Z.of_nat y)); destruct (Z.ltb_spec (Z.of_nat y) (Z.of_nat size));
      destruct (Z.leb_spec 0 (Z.of_nat x)); destruct (Z.ltb_spec (Z.of_nat x) (Z.of_nat size));
      cbn [andb]; try reflexivity; lia.
Qed.

(** X18: [create_square_icon] never raises: for every size and colours it
    makes one [put] call for each row, from the top, whose data are the
    colours of that row; without [inner] every pixel is the foreground,
    with [inner] the pixels whose row and column are both in
    [[pad, size - pad)], where [pad] is [max(1, size // 6)]. *)
Theorem create_square_icon_calls (size : nat) (fg bg : string) (inner : bool) :
  create_square_icon size fg bg inner
  = Ok (map (fun y => (put_data (map (icon_color size fg bg inner y) (seq 0 size)), Z.of_nat y))
          (seq 0 size)).
Proof.
  unfold create_square_icon. rewrite icon_pixels_grid. cbn [bind]. f_equal.
  unfold grid. apply list_eq. intros i.
  rewrite list_lookup_imap, !map_fmap, !list_lookup_fmap.
  destruct (lt_dec i size) as [Hi|Hi].
  - now rewrite lookup_seq_lt by exact Hi.
  - now rewrite lookup_seq_ge by lia.
Qed.

(** X19: an icon with [inner] keeps the background on its first and last
    row and column, whatever its size, and has no foreground pixel at all
    when its size is at most 2. *)
Theorem inner_icon_frame (size : nat) (fg bg : string) :
  exists pixels,
    icon_pixels size fg bg true = Ok pixels
    /\ length pixels = size
    /\ forall y x row color,
         pixels !! y = Some row -> row !! x = Some color ->
         y = 0%nat \/ x = 0%nat \/ S y = size \/ S x = size \/ (size <= 2)%nat ->
         color = bg.
Proof.
  exists (grid size (icon_color size fg bg true)).
  split; [apply icon_pixels_grid|]. split; [apply grid_length|].
  intros y x row color Hrow Hcolor Hedge.
  pose proof (lookup_lt_Some _ _ _ Hrow) as Hy. rewrite grid_length in Hy.
  rewrite (grid_row _ _ _ Hy) in Hrow. injection Hrow as <-.
  pose proof (lookup_lt_Some _ _ _ Hcolor) as Hx. rewrite length_map, length_seq in Hx.
  rewrite map_fmap, list_lookup_fmap, lookup_seq_lt in Hcolor by exact Hx.
  cbn in Hcolor. injection Hcolor as <-.
  unfold icon_color. cbv zeta.
  assert (0 <= Z.of_nat size / 6) by (apply Z.div_pos; lia).
  destruct (Z.leb_spec (Z.max 1 (Z.of_nat size / 6)) (Z.of_nat y));
    destruct (Z.ltb_spec (Z.of_nat y) (Z.of_nat size - Z.max 1 (Z.of_nat size / 6)));
    destruct (Z.leb_spec (Z.max 1 (Z.of_nat size / 6)) (Z.of_nat x));
    destruct (Z.ltb_spec (Z.of_nat x) (Z.of_nat size - Z.max 1 (Z.of_nat size / 6)));
    cbn [andb]; try reflexivity; lia.
Qed.

(** ** Colours as text *)

Lemma components_read_back : forallb reads_back (map Z.of_nat (seq 0 256)) = true.
Proof. vm_compute. reflexivity. Qed.

Lemma format_02x_component (n : Z) :
  0 <= n <= 255 ->
  exists a b,
    format_02x n = String a (String b EmptyString)
    /\ Ascii.eqb a "#" = false
    /\ int_of_str_16 (String a (String b EmptyString)) = Ok n.
Proof.
  intros Hn. pose proof components_read_back as Hall.
  rewrite forallb_forall in Hall. specialize (Hall n).
  assert (reads_back n = true) as Hok.
  { apply Hall. apply in_map_iff. exists (Z.to_nat n). split; [lia|]. apply in_seq. lia. }
  unfold reads_back in Hok.
  destruct (format_02x n) as [|a [|b [|]]]; try discriminate.
  exists a, b. apply andb_true_iff in Hok as [Ha Hz]. split; [reflexivity|].
  split; [now destruct (Ascii.eqb a "#")|].
  destruct (int_of_str_16 (String a (String b ""))) as [z|]; [|discriminate].
  apply Z.eqb_eq in Hz. now subst.
Qed.

Lemma lstrip_hash_other (a : ascii) (s : string) :
  Ascii.eqb a "#" = false -> lstrip_hash (String a s) = String a s.
Proof.
  intros Ha. destruct a as [[] [] [] [] [] [] [] []]; try reflexivity. discriminate.
Qed.

(** X20: for three components from 0 to 255, [rgb_to_hex] writes seven
    characters and [hex_to_rgb] reads them back as the three components. *)
Theorem hex_of_rgb_roundtrip (r g b : Z) :
  0 <= r <= 255 -> 0 <= g <= 255 -> 0 <= b <= 255 ->
  String.length (rgb_to_hex r g b) = 7%nat
  /\ hex_to_rgb (rgb_to_hex r g b) = Ok (r, g, b).
Proof.
  intros Hr Hg Hb.
  destruct (format_02x_component r Hr) as (r1 & r2 & Er & Hhash & Ir).
  destruct (format_02x_component g Hg) as (g1 & g2 & Eg & _ & Ig).
  destruct (format_02x_component b Hb) as (b1 & b2 & Eb & _ & Ib).
  unfold rgb_to_hex, hex_to_rgb. rewrite Er, Eg, Eb. split; [reflexivity|].
  change ("#" ++ String r1 (String r2 "") ++ String g1 (String g2 "") ++ String b1 (String b2 ""))
    with (String "#" (String r1 (String r2 (String g1 (String g2 (String b1 (String b2 ""))))))).
  change (lstrip_hash (String "#" ?s)) with (lstrip_hash s).
  rewrite (lstrip_hash_other _ _ Hhash).
  cbn [substring]. rewrite Ir, Ig, Ib. reflexivity.
Qed.

Lemma hex_of_rgb_roundtrip_witness :
  String.length (rgb_to_hex 255 215 0) = 7%nat
  /\ hex_to_rgb (rgb_to_hex 255 215 0) = Ok (255, 215, 0).
Proof. apply (hex_of_rgb_roundtrip 255 215 0); lia. Defined.

Lemma substring_past_end (s : string) : forall n m,
  (String.length s <= n)%nat -> substring n m s = "".
Proof.
  induction s as [|c s IH]; intros n m Hn.
  - destruct n, m; reflexivity.
  - destruct n as [|n]; cbn [String.length] in Hn; [lia|].
    cbn [substring]. apply IH. lia.
Qed.

Lemma int_of_str_16_raises (s : string) (e : exn) :
  int_of_str_16 s = Raise e -> e = ValueError.
Proof.
  unfold int_of_str_16.
  destruct (match strip_of is_c_space s with
            | String "-" t => option_map Z.opp (hex_body t)
            | String "+" t => hex_body t
            | t => hex_body t
            end); [discriminate|]. now intros [= <-].
Qed.

(** X21: [hex_to_rgb] raises [ValueError] for a text that has fewer than
    five characters after its leading hash signs, such as a colour of
    three digits: the third component has no digit. *)
Theorem hex_to_rgb_short (h : string) :
  (String.length (lstrip_hash h) <= 4)%nat -> hex_to_rgb h = Raise ValueError.
Proof.
  intros Hlen. unfold hex_to_rgb. cbv zeta.
  rewrite (substring_past_end _ 4 2 Hlen).
  destruct (int_of_str_16 (substring 0 2 (lstrip_hash h))) as [r|e] eqn:Er; cbn [bind].
  - destruct (int_of_str_16 (substring 2 2 (lstrip_hash h))) as [g|e] eqn:Eg; cbn [bind].
    + reflexivity.
    + now rewrite (int_of_str_16_raises _ _ Eg).
  - now rewrite (int_of_str_16_raises _ _ Er).
Qed.

Lemma hex_to_rgb_short_witness : hex_to_rgb "#fff" = Raise ValueError.
Proof. apply (hex_to_rgb_short "#fff"). vm_compute. lia. Defined.

(** ** Exporting a playlist and loading the file *)

(** X22: the selected playlist, whose titles are strings, exported to a
    writable path, then loaded from it into the selected playlist of any
    window: that playlist keeps its name and id and gets the videos of the
    exported one, in their order; the other playlists, the next id and the
    list box stay as they are. *)
Theorem export_then_load_into `{JsonCodec} (fs : filesystem) (filename : string)
    (w w2 : Window) (i j : nat) (pl q : Playlist) :
  String.eqb filename "" = false ->
  writable fs filename = true ->
  playlists (channel (app_of w)) !! i = Some pl ->
  forallb typed_video (videos pl) = true ->
  playlists (channel (app_of w2)) !! j = Some q ->
  exists fs',
    Gui.export_playlist_file w [Z.of_nat i] filename fs = (Ok Returned, fs')
    /\ Gui.load_playlist_to_selected fs' [Z.of_nat j] filename w2
       = (Ok Returned,
          mkWindow
            (mkApp
               (mkChannel (name (channel (app_of w2)))
                  (<[j := mkPlaylist (playListName q) (plID q) (videos pl)]>
                     (playlists (channel (app_of w2)))))
               (next_playlist_id (app_of w2)))
            (playlist_listbox w2)).
Proof.
  intros Hf Hw Hpl Hty Hq.
  unfold Gui.export_playlist_file, Gui.save_selected_playlist, abind at 1, lift at 1.
  rewrite (getitem_nat _ _ _ Hpl), Hf.
  unfold Gui.try_except, Playlist.save_playlist_to_file, write_file. rewrite Hw.
  eexists. split; [reflexivity|].
  unfold Gui.load_playlist_to_selected, abind at 1, read. unfold abind at 1, lift at 1.
  rewrite (getitem_nat _ _ _ Hq), Hf.
  unfold Gui.try_except, Gui.on_app, Gui.on_channel, Gui.on_playlist.
  rewrite (getitem_nat _ _ _ Hq).
  pose proof (lookup_lt_Some _ _ _ Hq) as Hlt.
  assert (norm_index (length (playlists (channel (app_of w2)))) (Z.of_nat j) = Z.of_nat j) as ->.
  { unfold norm_index. destruct (Z.ltb_spec (Z.of_nat j) 0); [lia | reflexivity]. }
  rewrite Nat2Z.id, load_playlist_cases. cbn [files]. rewrite lookup_insert_eq.
  rewrite file_lines_video_lines, load_lines_video_lines by exact Hty.
  reflexivity.
Qed.

Lemma export_then_load_into_witness :
  exists fs',
    Gui.export_playlist_file (mkWindow (mkApp test_channel 2) []) [0] "tutorials.txt" empty_fs
    = (Ok Returned, fs')
    /\ Gui.load_playlist_to_selected fs' [2] "tutorials.txt" three_playlists
       = (Ok Returned,
          mkWindow
            (mkApp
               (mkChannel (VStr "Elsayed Channel")
                  [mkPlaylist (VStr "x") (VInt 1) [];
                   mkPlaylist (VStr "y") (VInt 2) [];
                   mkPlaylist (VStr "z") (VInt 3) (videos tutorials)])
               4)
            (playlist_listbox three_playlists)).
Proof.
  apply (export_then_load_into empty_fs "tutorials.txt" (mkWindow (mkApp test_channel 2) [])
           three_playlists 0 2 tutorials (mkPlaylist (VStr "z") (VInt 3) []));
    reflexivity.
Defined.
